(** * LocalizationService (angular2localization): a shallow embedding

    The development follows [localization.service.ts]: the translation
    table and [translate], the collation based [compare], [sort], [search]
    and [match], and the asynchronous loading of the translation data.

    Conventions of the embedding.
    - A JavaScript value is a [jsval]: [undefined], [null], a string or an
      object.  An object is the list of its own properties in the order
      [for ... in] visits them.  Properties inherited from
      [Object.prototype] are outside the model.
    - A string is a sequence of code units; [String.length] is [length].
    - Code that can throw returns an [outcome].  A recursive method takes a
      fuel argument and answers [OutOfFuel] when the recursion is deeper
      than the fuel; a call that answers [OutOfFuel] for every fuel is an
      unbounded recursion, which the engine ends with a [RangeError].
    - The service is a record of its fields; a method that assigns fields
      maps a service to a service.  What the service sends out (events of
      [translationChanged], [console.error], [http.get]) is appended to
      traces kept in the record.
    - The objects of a list given to [sort] or [search] live in a [heap]
      and the list holds their addresses, since these methods write into
      the objects of the caller. *)

From Stdlib Require Import ZArith String Ascii List Bool Lia Permutation.
From stdpp Require Import base option list strings gmap.
Import ListNotations.

Local Open Scope Z_scope.
Local Open Scope nat_scope.
Local Set Warnings "-register-all".

(** ** JavaScript values *)

Module JS.

Inductive jsval : Type :=
| JUndefined
| JNull
| JStr (s : string)
| JObj (fields : list (string * jsval)).

Definition obj : Type := list (string * jsval).

Inductive error : Type :=
| TypeError.

Inductive outcome (A : Type) : Type :=
| Ok (a : A)
| Throw (e : error)
| OutOfFuel.

Arguments Ok {A} a.
Arguments Throw {A} e.
Arguments OutOfFuel {A}.

Definition bind {A B : Type} (m : outcome A) (f : A -> outcome B) : outcome B :=
  match m with
  | Ok a => f a
  | Throw e => Throw e
  | OutOfFuel => OutOfFuel
  end.

Definition returns {A : Type} (m : outcome A) : bool :=
  match m with
  | Ok _ => true
  | _ => false
  end.

(** [o[k]] on an object. *)
Fixpoint prop_get (o : obj) (k : string) : jsval :=
  match o with
  | [] => JUndefined
  | (k', v) :: o' => if String.eqb k k' then v else prop_get o' k
  end.

(** [o[k] = v] on an object: an existing property keeps its place. *)
Fixpoint prop_set (o : obj) (k : string) (v : jsval) : obj :=
  match o with
  | [] => [(k, v)]
  | (k', v') :: o' =>
      if String.eqb k k' then (k, v) :: o' else (k', v') :: prop_set o' k v
  end.

(** [k in o] for own properties. *)
Fixpoint prop_has (o : obj) (k : string) : bool :=
  match o with
  | [] => false
  | (k', _) :: o' => String.eqb k k' || prop_has o' k
  end.

(** [v == null], true of [null] and of [undefined]. *)
Definition eq_null (v : jsval) : bool :=
  match v with
  | JUndefined | JNull => true
  | _ => false
  end.

(** [v == ""]: an object is compared through its string conversion,
    which is not empty. *)
Definition eq_empty (v : jsval) : bool :=
  match v with
  | JStr s => String.eqb s ""
  | _ => false
  end.

(** [typeof v == "object"]. *)
Definition typeof_object (v : jsval) : bool :=
  match v with
  | JNull | JObj _ => true
  | _ => false
  end.

(** [typeof v !== 'undefined']. *)
Definition defined (v : jsval) : bool :=
  match v with
  | JUndefined => false
  | _ => true
  end.

(** Conversion to a string and to a property name. *)
Definition to_string (v : jsval) : string :=
  match v with
  | JUndefined => "undefined"
  | JNull => "null"
  | JStr s => s
  | JObj _ => "[object Object]"
  end.

(** Truth value of an optional string field ([undefined] when [None]). *)
Definition truthy (v : option string) : bool :=
  match v with
  | Some s => negb (String.eqb s "")
  | None => false
  end.

(** *** [String.prototype.split]

    With a separator that is not empty the string is cut at each
    occurrence found from left to right, the search going on after the end
    of the occurrence.  [skip] counts the code units of the occurrence
    still to pass. *)
Fixpoint split_at (sep : string) (skip : nat) (cur : string) (s : string)
  : list string :=
  match s with
  | EmptyString => [cur]
  | String c s' =>
      match skip with
      | S k => split_at sep k cur s'
      | O =>
          if String.prefix sep s
          then cur :: split_at sep (Nat.pred (String.length sep)) "" s'
          else split_at sep 0 (cur +:+ String c "") s'
      end
  end.

Definition split (s : string) (sep : option string) : list string :=
  match sep with
  | None => [s]
  | Some "" => map (fun c => String c "") (list_ascii_of_string s)
  | Some sep => split_at sep 0 "" s
  end.

(** The strings in which the code unit [c] does not occur. *)
Fixpoint free_of (c : ascii) (s : string) : bool :=
  match s with
  | EmptyString => true
  | String c' s' => negb (Ascii.eqb c' c) && free_of c s'
  end.

(** [v.substr(i, n)]. *)
Definition substr (v : string) (i n : nat) : string := String.substring i n v.

End JS.

Import JS.

(** ** The template of parameters

    [TEMPLATE_REGEXP] reads: two opening braces, at most one white space,
    a captured name of any length made of code units that are neither
    braces nor white space, at most one white space, two closing braces.
    The three parts between the braces cannot compete for a code unit: the
    class of the name excludes white space and braces.  A match at a
    position is therefore found by taking one white space if there is one,
    the longest name, one white space if there is one, and the closing
    braces. *)

Module Template.

Definition is_space (c : ascii) : bool :=
  let n := nat_of_ascii c in
  (Nat.leb 9 n && Nat.leb n 13) || Nat.eqb n 32 || Nat.eqb n 160.

Definition is_name (c : ascii) : bool :=
  negb (Ascii.eqb c "{" || Ascii.eqb c "}" || is_space c).

(** At most one white space. *)
Definition eat_space (s : string) : string * string :=
  match s with
  | String c s' => if is_space c then (String c "", s') else ("", s)
  | EmptyString => ("", "")
  end.

(** The longest name. *)
Fixpoint eat_name (s : string) : string * string :=
  match s with
  | String c s' =>
      if is_name c
      then let '(name, rest) := eat_name s' in (String c name, rest)
      else ("", s)
  | EmptyString => ("", "")
  end.

(** A match that starts at the head of [s]: the name captured and the
    number of code units matched. *)
Definition match_here (s : string) : option (string * nat) :=
  match s with
  | String c0 (String c1 s1) =>
      if Ascii.eqb c0 "{" && Ascii.eqb c1 "{" then
        let '(w1, s2) := eat_space s1 in
        let '(name, s3) := eat_name s2 in
        let '(w2, s4) := eat_space s3 in
        match s4 with
        | String c2 (String c3 _) =>
            if Ascii.eqb c2 "}" && Ascii.eqb c3 "}"
            then Some (name,
                       2 + String.length w1 + String.length name
                       + String.length w2 + 2)
            else None
        | _ => None
        end
      else None
  | _ => None
  end.

(** [value.replace(TEMPLATE_REGEXP, f)] with a function [f] of the matched
    text and of the captured name.  After a match the scan goes on behind
    it: [skip] counts the code units of the match still to pass. *)
Fixpoint replace_from (f : string -> string -> string) (skip : nat)
  (s : string) : string :=
  match s with
  | EmptyString => ""
  | String c s' =>
      match skip with
      | S k => replace_from f k s'
      | O =>
          match match_here s with
          | Some (name, len) =>
              f (substr s 0 len) name +:+ replace_from f (Nat.pred len) s'
          | None => String c (replace_from f 0 s')
          end
      end
  end.

Definition replace (f : string -> string -> string) (s : string) : string :=
  replace_from f 0 s.

(** The shape of a parameter in a translation: the braces, a name without
    braces and white space, and at most one white space on each side of
    the name. *)
Definition optional_space (w : string) : bool :=
  match w with
  | EmptyString => true
  | String c EmptyString => is_space c
  | _ => false
  end.

Fixpoint all_name (name : string) : bool :=
  match name with
  | EmptyString => true
  | String c name' => is_name c && all_name name'
  end.

Definition placeholder (w1 name w2 : string) : string :=
  "{{" +:+ w1 +:+ name +:+ w2 +:+ "}}".

(** What ends a name: the end of the string, a white space or a brace. *)
Definition stops_name (r : string) : bool :=
  match r with
  | EmptyString => true
  | String c _ => negb (is_name c)
  end.

(** The names that the scan of [replace] captures in [s], from left to
    right: the second arguments of the calls of the function given to
    [replace]. *)
Fixpoint names_from (skip : nat) (s : string) : list string :=
  match s with
  | EmptyString => []
  | String c s' =>
      match skip with
      | S k => names_from k s'
      | O =>
          match match_here s with
          | Some (name, len) => name :: names_from (Nat.pred len) s'
          | None => names_from 0 s'
          end
      end
  end.

Definition names (s : string) : list string := names_from 0 s.

(** The string without its first [n] code units. *)
Fixpoint string_drop (n : nat) (s : string) : string :=
  match n, s with
  | S n', String _ s' => string_drop n' s'
  | _, _ => s
  end.

End Template.

(** ** The service *)

Inductive ServiceState : Type :=
| isReady
| isLoading
| isWaiting.

Inductive LoadingMode : Type :=
| Direct
| Async.

Record Provider : Type := mkProvider {
  prefix : string;
  dataFormat : string;
  webAPI : bool
}.

(** The fields of [LocalizationService].  [translationData] maps a
    language code to the object of its translations; a field of type
    [string] that is not initialized is [None].  [counter] is read only
    after [getTranslation] has set it.  The last three fields are the
    traces of [translationChanged.emit], [console.error] and [http.get]. *)
Record service : Type := mkService {
  languageCode : string;
  loadingMode : LoadingMode;
  serviceState : ServiceState;
  enableLocale : bool;
  providers : list Provider;
  translationData : gmap string obj;
  missingValue : option string;
  missingKey : option string;
  composedKey : bool;
  keySeparator : option string;
  counter : Z;
  translationChanged : list string;
  console_error : list string;
  http_get : list string
}.

(** What the service is given by its surroundings: [LocaleService], the
    check [IntlSupport.Collator], [Intl.Collator] and
    [Array.prototype.sort].  [Number_compare n x] is the engine's
    comparison of the number [n] with the number that the string [x]
    converts to: [Some Gt] when [n] is the greater, [None] when [x] does
    not convert to a number. *)
Record collator_options : Type := mkOptions {
  usage : option string;
  sensitivity : option string
}.

Record environment : Type := mkEnvironment {
  getCurrentLanguage : string;
  getCurrentCountry : string;
  IntlSupport_Collator : string -> bool;
  Intl_Collator : string -> option collator_options -> string -> string -> Z;
  Array_sort : (nat -> nat -> Z) -> list nat -> list nat;
  Number_compare : nat -> string -> option comparison
}.

(** Assignments to the fields the methods write. *)
Definition set_translationData (t : gmap string obj) (s : service) : service :=
  mkService (languageCode s) (loadingMode s) (serviceState s) (enableLocale s)
    (providers s) t (missingValue s) (missingKey s) (composedKey s)
    (keySeparator s) (counter s) (translationChanged s) (console_error s)
    (http_get s).

Definition set_serviceState (st : ServiceState) (s : service) : service :=
  mkService (languageCode s) (loadingMode s) st (enableLocale s)
    (providers s) (translationData s) (missingValue s) (missingKey s)
    (composedKey s) (keySeparator s) (counter s) (translationChanged s)
    (console_error s) (http_get s).

Definition set_languageCode (l : string) (s : service) : service :=
  mkService l (loadingMode s) (serviceState s) (enableLocale s)
    (providers s) (translationData s) (missingValue s) (missingKey s)
    (composedKey s) (keySeparator s) (counter s) (translationChanged s)
    (console_error s) (http_get s).

Definition set_loadingMode (m : LoadingMode) (s : service) : service :=
  mkService (languageCode s) m (serviceState s) (enableLocale s)
    (providers s) (translationData s) (missingValue s) (missingKey s)
    (composedKey s) (keySeparator s) (counter s) (translationChanged s)
    (console_error s) (http_get s).

Definition set_enableLocale (b : bool) (s : service) : service :=
  mkService (languageCode s) (loadingMode s) (serviceState s) b
    (providers s) (translationData s) (missingValue s) (missingKey s)
    (composedKey s) (keySeparator s) (counter s) (translationChanged s)
    (console_error s) (http_get s).

Definition set_providers (ps : list Provider) (s : service) : service :=
  mkService (languageCode s) (loadingMode s) (serviceState s) (enableLocale s)
    ps (translationData s) (missingValue s) (missingKey s) (composedKey s)
    (keySeparator s) (counter s) (translationChanged s) (console_error s)
    (http_get s).

Definition set_missing (value key : option string) (s : service) : service :=
  mkService (languageCode s) (loadingMode s) (serviceState s) (enableLocale s)
    (providers s) (translationData s) value key (composedKey s)
    (keySeparator s) (counter s) (translationChanged s) (console_error s)
    (http_get s).

Definition set_composed (c : bool) (sep : option string) (s : service)
  : service :=
  mkService (languageCode s) (loadingMode s) (serviceState s) (enableLocale s)
    (providers s) (translationData s) (missingValue s) (missingKey s) c sep
    (counter s) (translationChanged s) (console_error s) (http_get s).

Definition set_counter (n : Z) (s : service) : service :=
  mkService (languageCode s) (loadingMode s) (serviceState s) (enableLocale s)
    (providers s) (translationData s) (missingValue s) (missingKey s)
    (composedKey s) (keySeparator s) n (translationChanged s)
    (console_error s) (http_get s).

(** [this.translationChanged.emit(language)] *)
Definition emit (language : string) (s : service) : service :=
  mkService (languageCode s) (loadingMode s) (serviceState s) (enableLocale s)
    (providers s) (translationData s) (missingValue s) (missingKey s)
    (composedKey s) (keySeparator s) (counter s)
    (translationChanged s ++ [language]) (console_error s) (http_get s).

(** [console.error("Localization service:", error)] *)
Definition log_error (error : string) (s : service) : service :=
  mkService (languageCode s) (loadingMode s) (serviceState s) (enableLocale s)
    (providers s) (translationData s) (missingValue s) (missingKey s)
    (composedKey s) (keySeparator s) (counter s) (translationChanged s)
    (console_error s ++ [error]) (http_get s).

(** [this.http.get(url)] with its subscription. *)
Definition request (url : string) (s : service) : service :=
  mkService (languageCode s) (loadingMode s) (serviceState s) (enableLocale s)
    (providers s) (translationData s) (missingValue s) (missingKey s)
    (composedKey s) (keySeparator s) (counter s) (translationChanged s)
    (console_error s) (http_get s ++ [url]).

(** The constructor. *)
Definition new_service : service :=
  {| languageCode := "";
     loadingMode := Direct;
     serviceState := isWaiting;
     enableLocale := false;
     providers := [];
     translationData := ∅;
     missingValue := None;
     missingKey := None;
     composedKey := true;
     keySeparator := Some ".";
     counter := 0%Z;
     translationChanged := [];
     console_error := [];
     http_get := [] |}.

(** *** [translate] *)

(** The loop [do { key = keys.shift(); ... } while (keys.length > 0)]:
    the last key taken and the object reached.  The body runs once also
    on an empty array, where [keys.shift()] is [undefined]. *)
Definition descend_step (translation : obj) (key : jsval) : obj :=
  let v := prop_get translation (to_string key) in
  if negb (eq_null v) && typeof_object v
  then match v with JObj o => o | _ => translation end
  else translation.

Fixpoint descend (keys : list string) (translation : obj) : jsval * obj :=
  match keys with
  | [] => (JUndefined, descend_step translation JUndefined)
  | k :: keys' =>
      match keys' with
      | [] => (JStr k, descend_step translation (JStr k))
      | _ :: _ => descend keys' (descend_step translation (JStr k))
      end
  end.

(** The values into which the loop descends. *)
Definition is_mapping (v : jsval) : bool :=
  match v with
  | JObj _ => true
  | _ => false
  end.

(** [key.split(this.keySeparator)]: only a string has the method. *)
Definition key_split (key : jsval) (sep : option string)
  : outcome (list string) :=
  match key with
  | JStr k => Ok (split k sep)
  | _ => Throw TypeError
  end.

(** The first part of [translate]: the key left in [key] and the value
    found, [undefined] when the language has no translation data. *)
Definition find_value (s : service) (key : jsval) (lang : string)
  : outcome (jsval * jsval) :=
  match translationData s !! lang with
  | Some translation =>
      if composedKey s then
        bind (key_split key (keySeparator s)) (fun keys =>
          let '(key', translation') := descend keys translation in
          Ok (key', prop_get translation' (to_string key')))
      else Ok (key, prop_get translation (to_string key))
  | None => Ok (key, JUndefined)
  end.

(** The function given to [replace]. *)
Definition parameter (args : obj) (substring parsedKey : string) : string :=
  let response := prop_get args parsedKey in
  if defined response then to_string response else substring.

(** [value.replace(...)]: only a string has the method. *)
Definition value_replace (value : jsval) (args : obj) : outcome jsval :=
  match value with
  | JStr v => Ok (JStr (Template.replace (parameter args) v))
  | _ => Throw TypeError
  end.

Definition is_missing (value : jsval) : bool :=
  eq_null value || eq_empty value.

Fixpoint translate (fuel : nat) (s : service) (key : jsval)
  (args : option obj) (lang : string) : outcome jsval :=
  match fuel with
  | O => OutOfFuel
  | S fuel' =>
      bind (find_value s key lang) (fun '(key, value) =>
        if is_missing value then
          if truthy (missingKey s)
          then translate fuel' s (JStr (default "" (missingKey s))) args lang
          else if truthy (missingValue s)
          then Ok (JStr (default "" (missingValue s)))
          else Ok key
        else
          match args with
          | Some args => value_replace value args
          | None => Ok value
          end)
  end.

(** *** Translation data *)

(** [extend(...args)]: a new object receives, for each argument in turn
    and for each key of it, the value the argument has at that key. *)
Definition copy_fields (newObj : obj) (o : obj) : obj :=
  fold_left (fun acc key => prop_set acc key (prop_get o key)) (map fst o)
    newObj.

Definition extend (args : list obj) : obj :=
  fold_left copy_fields args [].

Definition addData (data : obj) (language : string) (s : service) : service :=
  set_translationData
    (<[language :=
         match translationData s !! language with
         | Some old => extend [old; data]
         | None => data
         end]> (translationData s)) s.

(** The object of a language in the table, empty when the language has
    no data. *)
Definition entry (language : string) (s : service) : obj :=
  default [] (translationData s !! language).

Definition addTranslation (language : string) (translation : obj)
  (s : service) : service :=
  addData translation language s.

(** *** Providers and loading *)

Definition addProvider (prefix : string) (dataFormat : option string)
  (webAPI : option bool) (s : service) : service :=
  let s1 :=
    set_providers
      (providers s ++
       [mkProvider prefix (default "json" dataFormat) (default false webAPI)])
      s in
  if Nat.eqb (length (providers s1)) 1 then set_loadingMode Async s1 else s1.

Definition translationProvider (prefix : string) (dataFormat : option string)
  (webAPI : option bool) (s : service) : service :=
  addProvider prefix dataFormat webAPI s.

Definition translationComplete (language : string) (s : service) : service :=
  emit language (set_languageCode language (set_serviceState isReady s)).

Definition provider_url (provider : Provider) (language : string) : string :=
  if webAPI provider
  then prefix provider +:+ language
  else prefix provider +:+ language +:+ "." +:+ dataFormat provider.

(** [getTranslation]: the data of every language is dropped, the counter
    is set to the number of providers and one request is sent to each of
    them.  The answers come later, in [on_next], [on_error] and
    [on_complete]. *)
Definition getTranslation (language : string) (s : service) : service :=
  let s1 := set_translationData ∅ s in
  let s2 := set_serviceState isLoading s1 in
  let s3 := set_counter (Z.of_nat (length (providers s2))) s2 in
  fold_left (fun acc provider => request (provider_url provider language) acc)
    (providers s3) s3.

(** The three functions given to [subscribe]; [language] is the argument
    of the call of [getTranslation] that made the request. *)
Definition on_next (language : string) (res : obj) (s : service) : service :=
  addData res language s.

Definition on_error (error : string) (s : service) : service :=
  log_error error s.

Definition on_complete (language : string) (s : service) : service :=
  let s1 := set_counter (counter s - 1)%Z s in
  if (counter s1 <=? 0)%Z then translationComplete language s1 else s1.

(** The answer to one request.  The observable of [http.get] gives the
    body, which [map] parses, and completes; or it fails, when the request
    fails or the body does not parse.  By the contract of observables the
    notifications of error and of completion exclude each other: after
    the function for errors the function for completion is not called. *)
Inductive response : Type :=
| Success (res : obj)
| Failure (error : string).

Definition deliver (language : string) (r : response) (s : service)
  : service :=
  match r with
  | Success res => on_complete language (on_next language res s)
  | Failure error => on_error error s
  end.

Definition deliver_all (language : string) (rs : list response) (s : service)
  : service :=
  fold_left (fun acc r => deliver language r acc) rs s.

(** The answers that carry data. *)
Definition is_success (r : response) : bool :=
  match r with
  | Success _ => true
  | Failure _ => false
  end.

Definition successes (rs : list response) : nat :=
  length (filter (fun r => is_success r = true) rs).

(** The data of the answers, in the order of arrival, and the entry that
    merging them one after the other builds from the entry [old]. *)
Definition payloads (rs : list response) : list obj :=
  omap (fun r => match r with Success res => Some res | Failure _ => None end)
    rs.

Definition merge_entry (old : option obj) (data : obj) : option obj :=
  Some match old with
       | Some o => extend [o; data]
       | None => data
       end.

Definition merged (old : option obj) (ds : list obj) : option obj :=
  fold_left merge_entry ds old.

Definition useLocaleAsLanguage (s : service) : service :=
  set_enableLocale true s.

Definition updateTranslation (env : environment) (language : option string)
  (s : service) : service :=
  let language :=
    default
      (if negb (enableLocale s)
       then getCurrentLanguage env
       else getCurrentLanguage env +:+ "-" +:+ getCurrentCountry env)
      language in
  if negb (String.eqb language "")
     && negb (String.eqb language (languageCode s))
  then
    match loadingMode s with
    | Async => getTranslation language s
    | Direct => translationComplete language s
    end
  else s.

Definition setMissingValue (value : string) (s : service) : service :=
  set_missing (Some value) (missingKey s) s.

Definition setMissingKey (key : string) (s : service) : service :=
  set_missing (missingValue s) (Some key) s.

(** An argument left out is [undefined], which is false as a condition. *)
Definition setComposedKey (composedKey : option bool)
  (keySeparator : option string) (s : service) : service :=
  set_composed (default false composedKey) keySeparator s.

(** The calls that change the service: its public methods that assign
    fields, and the answers to its requests.  [translate], [compare],
    [sort], [search] and [match] read the service and leave it as it is. *)
Inductive operation : Type :=
| op_addTranslation (language : string) (translation : obj)
| op_translationProvider (prefix : string) (dataFormat : option string)
    (webAPI : option bool)
| op_addProvider (prefix : string) (dataFormat : option string)
    (webAPI : option bool)
| op_useLocaleAsLanguage
| op_updateTranslation (language : option string)
| op_setMissingValue (value : string)
| op_setMissingKey (key : string)
| op_setComposedKey (composedKey : option bool) (keySeparator : option string)
| op_response (language : string) (r : response).

Definition step (env : environment) (op : operation) (s : service) : service :=
  match op with
  | op_addTranslation language translation =>
      addTranslation language translation s
  | op_translationProvider prefix dataFormat webAPI =>
      translationProvider prefix dataFormat webAPI s
  | op_addProvider prefix dataFormat webAPI =>
      addProvider prefix dataFormat webAPI s
  | op_useLocaleAsLanguage => useLocaleAsLanguage s
  | op_updateTranslation language => updateTranslation env language s
  | op_setMissingValue value => setMissingValue value s
  | op_setMissingKey key => setMissingKey key s
  | op_setComposedKey composedKey keySeparator =>
      setComposedKey composedKey keySeparator s
  | op_response language r => deliver language r s
  end.

(** The services that calls can produce from a new one; the surroundings
    may differ from call to call. *)
Inductive reachable : service -> Prop :=
| reachable_new : reachable new_service
| reachable_step env op s : reachable s -> reachable (step env op s).

(** The language code and the events go together. *)
Definition code_is_last_event (s : service) : Prop :=
  languageCode s = default "" (last (translationChanged s)).

(** The calls that append a provider. *)
Definition adds_provider (op : operation) : bool :=
  match op with
  | op_translationProvider _ _ _ | op_addProvider _ _ _ => true
  | _ => false
  end.

(** ** Collation *)

Definition addExtension (locale : string) (extension : option string)
  : string :=
  match extension with
  | Some e => if negb (String.eqb e "") then locale +:+ "-" +:+ e else locale
  | None => locale
  end.

(** *** [match] *)

Section Matching.

Variable collator : string -> string -> Z.

(** The loop [for (i = 0; i < vLength - (sLength - 1); i++)] with [n]
    rounds left: whether it ended by [break], and [i] at its end. *)
Fixpoint match_loop (n : nat) (i : nat) (v s : string) : bool * nat :=
  match n with
  | O => (false, i)
  | S n' =>
      let str := substr v i (String.length s) in
      if (collator str s =? 0)%Z then (true, i)
      else match_loop n' (S i) v s
  end.

Definition match_rounds (v s : string) : nat :=
  Z.to_nat (Z.of_nat (String.length v) - (Z.of_nat (String.length s) - 1)).

Definition match_ (v s : string) : bool :=
  let vLength := String.length v in
  let sLength := String.length s in
  if Nat.ltb vLength sLength then false
  else if Nat.eqb sLength vLength then (collator v s =? 0)%Z
  else fst (match_loop (match_rounds v s) 0 v s).

(** The substring of [v] at [j] of the length of [s] collates equal to
    [s]. *)
Definition matches_at (v s : string) (j : nat) : Prop :=
  collator (substr v j (String.length s)) s = 0%Z.

Variable number_compare : nat -> string -> option comparison.

(** [match] on an object, where [v.length] is the property [length] of
    the object and need not be a number.  [undefined] and an object
    convert to no number: no comparison with them holds and the loop does
    not run.  [null] is 0 in [sLength > vLength] and in the bound of the
    loop, and equal to no number.  A string is compared as the number it
    converts to.  With equal lengths the object is collated through its
    string conversion.  Where the loop runs, [v.substr] is not a function
    and the call throws. *)
Definition match_object (o : obj) (s : string) : outcome bool :=
  let sLength := String.length s in
  let vLength := prop_get o "length" in
  let '(longer, equal, loop_runs) :=
    match vLength with
    | JUndefined | JObj _ => (false, false, false)
    | JNull => (Nat.ltb 0 sLength, false, Nat.eqb sLength 0)
    | JStr x =>
        match number_compare sLength x with
        | Some Gt => (true, false, false)
        | Some Eq => (false, true, true)
        | Some Lt => (false, false, true)
        | None => (false, false, false)
        end
    end in
  if longer then Ok false
  else if equal then Ok (collator (to_string (JObj o)) s =? 0)%Z
  else if loop_runs then Throw TypeError
  else Ok false.

(** [match] on the value read from a record.  [v.length] throws on
    [undefined] and [null]. *)
Definition match_value (v : jsval) (s : string) : outcome bool :=
  match v with
  | JStr v => Ok (match_ v s)
  | JObj o => match_object o s
  | JUndefined | JNull => Throw TypeError
  end.

End Matching.

(** *** Records of the caller *)

(** The objects of a list, by address.  An address without an object
    stands for an element that is [undefined]. *)
Definition read_field (h : gmap nat obj) (item : nat) (name : string)
  : outcome jsval :=
  match h !! item with
  | Some o => Ok (prop_get o name)
  | None => Throw TypeError
  end.

(** The string that the collator makes of [item[name]].  It is used after
    the loop over the list, which throws on an element without object. *)
Definition field_string (h : gmap nat obj) (item : nat) (name : string)
  : string :=
  match h !! item with
  | Some o => to_string (prop_get o name)
  | None => "undefined"
  end.

(** [list.indexOf(x, 0)] for a string [x].  An element of the list is an
    object, and [===] between an object and a string is false. *)
Definition strict_equals_string (item : nat) (x : string) : bool := false.

Fixpoint indexOf (l : list nat) (x : string) (i : nat) : option nat :=
  match l with
  | [] => None
  | item :: l' =>
      if strict_equals_string item x then Some i else indexOf l' x (S i)
  end.

(** [l.splice(index, 1)] *)
Definition splice1 (l : list nat) (index : nat) : list nat :=
  take index l ++ drop (S index) l.

Definition remove_column (l : list nat) (translated : string) : list nat :=
  match indexOf l translated 0 with
  | Some index => splice1 l index
  | None => l
  end.

(** The object at [item] has the field [translated]. *)
Definition has_column (h : gmap nat obj) (translated : string) (item : nat)
  : Prop :=
  exists o, h !! item = Some o /\ prop_has o translated = true.

(** [for (let item of list) { item[translated] = this.translate(item[keyName]); }] *)
Fixpoint translate_items (fuel : nat) (s : service) (keyName translated : string)
  (l : list nat) (h : gmap nat obj) : outcome (gmap nat obj) :=
  match l with
  | [] => Ok h
  | item :: l' =>
      match h !! item with
      | Some o =>
          bind (translate fuel s (prop_get o keyName) None (languageCode s))
            (fun value =>
               translate_items fuel s keyName translated l'
                 (<[item := prop_set o translated value]> h))
      | None => Throw TypeError
      end
  end.

(** *** [compare], [sort], [search] *)

Definition compare (fuel : nat) (env : environment) (s : service)
  (key1 key2 : jsval) (extension : option string)
  (options : option collator_options) : outcome Z :=
  if negb (IntlSupport_Collator env (getCurrentLanguage env)) then Ok 0%Z
  else
    bind (translate fuel s key1 None (languageCode s)) (fun value1 =>
    bind (translate fuel s key2 None (languageCode s)) (fun value2 =>
      let locale := addExtension (getCurrentLanguage env) extension in
      Ok (Intl_Collator env locale None (to_string value1) (to_string value2)))).

(** [sort] returns its argument [list], the array sorted in place, with
    the heap of the objects as the call leaves it. *)
Definition sort (fuel : nat) (env : environment) (s : service)
  (h : gmap nat obj) (list_ : option (list nat)) (keyName : option string)
  (order extension : option string) (options : option collator_options)
  : outcome (option (list nat) * gmap nat obj) :=
  match list_, keyName with
  | Some l, Some keyName =>
      if negb (IntlSupport_Collator env (getCurrentLanguage env))
      then Ok (list_, h)
      else
        let translated := keyName +:+ "Translated" in
        bind (translate_items fuel s keyName translated l h) (fun h1 =>
          let locale := addExtension (getCurrentLanguage env) extension in
          let collator := Intl_Collator env locale options in
          let l1 :=
            Array_sort env
              (fun a b =>
                 collator (field_string h1 a translated)
                   (field_string h1 b translated)) l in
          let l2 := remove_column l1 translated in
          let l3 :=
            match order with
            | Some o => if String.eqb o "desc" then rev l2 else l2
            | None => l2
            end in
          Ok (Some l3, h1))
  | _, _ => Ok (list_, h)
  end.

(** The first loop of [search]: one column of translated values for each
    name of [keyNames]. *)
Fixpoint translate_columns (fuel : nat) (s : service) (keyNames : list string)
  (l : list nat) (h : gmap nat obj) : outcome (gmap nat obj) :=
  match keyNames with
  | [] => Ok h
  | keyName :: keyNames' =>
      bind (translate_items fuel s keyName (keyName +:+ "Translated") l h)
        (fun h1 => translate_columns fuel s keyNames' l h1)
  end.

(** The function given to [filter]: the loop over the columns ends at the
    first one that matches. *)
Fixpoint found_in (collator : string -> string -> Z)
  (number : nat -> string -> option comparison) (h : gmap nat obj)
  (v : nat) (translated : list string) (s : string) : outcome bool :=
  match translated with
  | [] => Ok false
  | t :: translated' =>
      bind (read_field h v t) (fun x =>
      bind (match_value collator number x s) (fun m =>
        if m then Ok true else found_in collator number h v translated' s))
  end.

Fixpoint filter_matches (collator : string -> string -> Z)
  (number : nat -> string -> option comparison) (h : gmap nat obj)
  (l : list nat) (translated : list string) (s : string)
  : outcome (list nat) :=
  match l with
  | [] => Ok []
  | v :: l' =>
      bind (found_in collator number h v translated s) (fun found =>
      bind (filter_matches collator number h l' translated s) (fun matches =>
        Ok (if found then v :: matches else matches)))
  end.

Definition search (fuel : nat) (env : environment) (sv : service)
  (h : gmap nat obj) (s : string) (list_ : option (list nat))
  (keyNames : option (list string)) (options : option collator_options)
  : outcome (option (list nat) * gmap nat obj) :=
  let options := default (mkOptions (Some "search") None) options in
  match list_, keyNames with
  | Some l, Some keyNames =>
      if String.eqb s ""
         || negb (IntlSupport_Collator env (getCurrentLanguage env))
      then Ok (list_, h)
      else
        let translated := map (fun k => k +:+ "Translated") keyNames in
        bind (translate_columns fuel sv keyNames l h) (fun h1 =>
          let locale := getCurrentLanguage env in
          let collator := Intl_Collator env locale (Some options) in
          bind (filter_matches collator (Number_compare env) h1 l translated s)
            (fun matches =>
            Ok (Some (fold_left remove_column translated matches), h1)))
  | _, _ => Ok (list_, h)
  end.

(** ** The asynchronous variants

    [translateAsync], [sortAsync] and [searchAsync] return an observable.
    The function given to [new Observable] runs when the observable is
    subscribed to, on the service and the objects of that moment; it
    passes values to [observer.next], then calls [observer.complete],
    unless it throws before.  A [run] is the list of the values passed
    and the way the function ends.  The list given to the method is taken
    to have at the subscription the elements it had at the call. *)

Record run (A : Type) : Type := mkRun {
  run_next : list A;
  run_end : outcome unit
}.

Arguments mkRun {A} _ _.
Arguments run_next {A} _.
Arguments run_end {A} _.

(** The function of an observable: from the fuel, the surroundings, the
    service and the heap at the subscription to the run and the heap
    after it.  The outcome is [Throw] when the function throws before it
    has passed a value. *)
Definition observable (A : Type) : Type :=
  nat -> environment -> service -> gmap nat obj ->
  outcome (run A * gmap nat obj).

(** [translateAsync]: the language left out is the language code of the
    service at the call, the translation is made at the subscription. *)
Definition translateAsync (s0 : service) (key : jsval) (args : option obj)
  (lang : option string) : observable jsval :=
  let lang := default (languageCode s0) lang in
  fun fuel env s h =>
    bind (translate fuel s key args lang) (fun value =>
      Ok (mkRun [value] (Ok tt), h)).

(** [sortAsync]: one value, the list that [sort] returns. *)
Definition sortAsync (list_ : option (list nat)) (keyName : option string)
  (order extension : option string) (options : option collator_options)
  : observable (option (list nat)) :=
  fun fuel env s h =>
    bind (sort fuel env s h list_ keyName order extension options)
      (fun '(sorted, h') => Ok (mkRun [sorted] (Ok tt), h')).

(** The loop of [searchAsync] over the list: each record that matches in
    a column is passed to the observer at once; the loop over the columns
    is the one of [search]. *)
Fixpoint next_matches (collator : string -> string -> Z)
  (number : nat -> string -> option comparison) (h : gmap nat obj)
  (l : list nat) (translated : list string) (s : string) : run nat :=
  match l with
  | [] => mkRun [] (Ok tt)
  | v :: l' =>
      match found_in collator number h v translated s with
      | Ok found =>
          let r := next_matches collator number h l' translated s in
          mkRun (if found then v :: run_next r else run_next r) (run_end r)
      | Throw e => mkRun [] (Throw e)
      | OutOfFuel => mkRun [] OutOfFuel
      end
  end.

(** [searchAsync] returns [null] for a list that is [null].  The test of
    the names, of the string and of the support is made at the call, in
    the surroundings [env0] of the call; when it holds, the observable
    passes every element of the list.  Otherwise the observable
    translates the columns, passes the records that match and, when the
    loop has ended, removes the columns from the list it was given; the
    result holds that list as well. *)
Definition searchAsync (env0 : environment) (s : string)
  (list_ : option (list nat)) (keyNames : option (list string))
  (options : option collator_options)
  : option (nat -> environment -> service -> gmap nat obj ->
            outcome (run nat * list nat * gmap nat obj)) :=
  let options := default (mkOptions (Some "search") None) options in
  match list_ with
  | None => None
  | Some l =>
      match keyNames with
      | Some keyNames =>
          if String.eqb s ""
             || negb (IntlSupport_Collator env0 (getCurrentLanguage env0))
          then Some (fun fuel env sv h => Ok (mkRun l (Ok tt), l, h))
          else
            Some (fun fuel env sv h =>
              let translated := map (fun k => k +:+ "Translated") keyNames in
              bind (translate_columns fuel sv keyNames l h) (fun h1 =>
                let locale := getCurrentLanguage env in
                let collator := Intl_Collator env locale (Some options) in
                let r :=
                  next_matches collator (Number_compare env) h1 l translated
                    s in
                match run_end r with
                | Ok _ => Ok (r, fold_left remove_column translated l, h1)
                | _ => Ok (r, l, h1)
                end))
      | None => Some (fun fuel env sv h => Ok (mkRun l (Ok tt), l, h))
      end
  end.

(** ** A concrete environment for the examples

    Comparison by code units, a stable insertion sort, and a conversion
    to numbers that knows the strings of decimal digits. *)

Definition compare_code_units (a b : string) : Z :=
  match String.compare a b with
  | Eq => 0%Z
  | Lt => (-1)%Z
  | Gt => 1%Z
  end.

Fixpoint insert_by (cmp : nat -> nat -> Z) (x : nat) (l : list nat)
  : list nat :=
  match l with
  | [] => [x]
  | y :: l' => if (cmp x y <? 0)%Z then x :: l else y :: insert_by cmp x l'
  end.

Definition insertion_sort (cmp : nat -> nat -> Z) (l : list nat) : list nat :=
  fold_right (insert_by cmp) [] l.

Fixpoint decimal_value (acc : nat) (x : string) : option nat :=
  match x with
  | EmptyString => Some acc
  | String c x' =>
      let n := nat_of_ascii c in
      if Nat.leb 48 n && Nat.leb n 57
      then decimal_value (10 * acc + (n - 48)) x'
      else None
  end.

Definition compare_decimal (n : nat) (x : string) : option comparison :=
  option_map (Nat.compare n) (decimal_value 0 x).

Definition example_env (supported : bool) : environment :=
  {| getCurrentLanguage := "en";
     getCurrentCountry := "US";
     IntlSupport_Collator := fun _ => supported;
     Intl_Collator := fun _ _ => compare_code_units;
     Array_sort := insertion_sort;
     Number_compare := compare_decimal |}.

(** * Properties *)

(** ** Loading mode and providers *)

Lemma requests_frame (f : Provider -> string) ps s :
  let s' := fold_left (fun acc provider => request (f provider) acc) ps s in
  providers s' = providers s /\ loadingMode s' = loadingMode s /\
  translationData s' = translationData s /\ serviceState s' = serviceState s /\
  counter s' = counter s /\ translationChanged s' = translationChanged s /\
  languageCode s' = languageCode s /\ console_error s' = console_error s.
Proof.
  revert s. induction ps as [|p ps IH]; intros s; simpl.
  - repeat split.
  - specialize (IH (request (f p) s)). simpl in IH. exact IH.
Qed.

Lemma getTranslation_providers language s :
  providers (getTranslation language s) = providers s.
Proof.
  unfold getTranslation.
  destruct (requests_frame (fun p => provider_url p language) (providers s)
    (set_counter (Z.of_nat (length (providers s)))
       (set_serviceState isLoading (set_translationData ∅ s)))) as (H & _).
  exact H.
Qed.

Lemma getTranslation_loadingMode language s :
  loadingMode (getTranslation language s) = loadingMode s.
Proof.
  unfold getTranslation.
  destruct (requests_frame (fun p => provider_url p language) (providers s)
    (set_counter (Z.of_nat (length (providers s)))
       (set_serviceState isLoading (set_translationData ∅ s)))) as (_ & H & _).
  exact H.
Qed.

Lemma on_complete_frame language s :
  providers (on_complete language s) = providers s /\
  loadingMode (on_complete language s) = loadingMode s /\
  translationData (on_complete language s) = translationData s.
Proof.
  unfold on_complete. simpl. destruct (counter s - 1 <=? 0)%Z; repeat split.
Qed.

Lemma deliver_frame language r s :
  providers (deliver language r s) = providers s /\
  loadingMode (deliver language r s) = loadingMode s.
Proof.
  destruct r as [res|e]; simpl.
  - destruct (on_complete_frame language (on_next language res s)) as (H1 & H2 & _).
    rewrite H1, H2. split; reflexivity.
  - split; reflexivity.
Qed.

Lemma updateTranslation_frame env language s :
  providers (updateTranslation env language s) = providers s /\
  loadingMode (updateTranslation env language s) = loadingMode s.
Proof.
  unfold updateTranslation.
  match goal with |- context [if ?c then _ else _] => destruct c end;
    [|split; reflexivity].
  destruct (loadingMode s) eqn:E.
  - split; [reflexivity | simpl; congruence].
  - rewrite getTranslation_providers, getTranslation_loadingMode. auto.
Qed.

Lemma addProvider_providers prefix dataFormat webAPI s :
  providers (addProvider prefix dataFormat webAPI s) =
  providers s ++
  [mkProvider prefix (default "json" dataFormat) (default false webAPI)].
Proof.
  unfold addProvider. simpl.
  destruct (Nat.eqb _ 1); reflexivity.
Qed.

Lemma addProvider_loadingMode prefix dataFormat webAPI s :
  loadingMode (addProvider prefix dataFormat webAPI s) =
  if Nat.eqb (length (providers s)) 0 then Async else loadingMode s.
Proof.
  unfold addProvider. simpl. rewrite length_app. simpl.
  destruct (providers s) as [|p ps]; simpl; [reflexivity|].
  replace (length ps + 1) with (S (length ps)) by lia. reflexivity.
Qed.

Lemma step_providers env op s :
  providers (step env op s) =
  providers s ++
  match op with
  | op_translationProvider prefix dataFormat webAPI
  | op_addProvider prefix dataFormat webAPI =>
      [mkProvider prefix (default "json" dataFormat) (default false webAPI)]
  | _ => []
  end.
Proof.
  destruct op; simpl; rewrite ?app_nil_r; try reflexivity.
  - apply addProvider_providers.
  - apply addProvider_providers.
  - apply updateTranslation_frame.
  - apply deliver_frame.
Qed.

Lemma step_loadingMode env op s :
  loadingMode (step env op s) =
  if adds_provider op && Nat.eqb (length (providers s)) 0
  then Async else loadingMode s.
Proof.
  destruct op; simpl; try reflexivity.
  - apply addProvider_loadingMode.
  - apply addProvider_loadingMode.
  - apply updateTranslation_frame.
  - apply deliver_frame.
Qed.

Lemma reachable_mode s :
  reachable s -> (loadingMode s = Async <-> providers s <> []).
Proof.
  induction 1 as [|env op s Hs IH].
  - simpl. split; [discriminate | intros H; exfalso; apply H; reflexivity].
  - rewrite step_loadingMode, step_providers.
    destruct op; simpl; rewrite ?app_nil_r; try exact IH.
    all: destruct (providers s) as [|p ps] eqn:E; simpl;
      [split; [discriminate | reflexivity] |].
    all: split; intros _; [discriminate | apply IH; discriminate].
Qed.

(** C10.  On every service that calls can produce from a new one, the
    loading mode is [Async] exactly when a provider is registered.  A new
    service is in mode [Direct] without providers; a call leaves the list
    of providers as it is or, when it is [addProvider] or
    [translationProvider], appends one provider to it; and no call takes
    the mode from [Async] back to [Direct]. *)
Theorem loading_mode_async_iff_provider s :
  reachable s ->
  (loadingMode s = Async <-> providers s <> []) /\
  (loadingMode new_service = Direct /\ providers new_service = []) /\
  (forall env op,
     exists added,
       providers (step env op s) = providers s ++ added /\
       length added = (if adds_provider op then 1 else 0)) /\
  (forall env op,
     loadingMode s = Async -> loadingMode (step env op s) = Async).
Proof.
  intros Hs. split; [exact (reachable_mode s Hs)|].
  split; [split; reflexivity|]. split.
  - intros env op. eexists. split; [apply step_providers|].
    destruct op; reflexivity.
  - intros env op Ha. rewrite step_loadingMode, Ha.
    destruct (adds_provider op && _); reflexivity.
Qed.

Lemma loading_mode_async_iff_provider_witness :
  let s := step (example_env true) (op_updateTranslation (Some "en"))
             (step (example_env true) (op_addProvider "./i18n/locale-" None None)
                new_service) in
  reachable s /\ loadingMode s = Async /\ providers s <> [].
Proof.
  intros s.
  assert (Hs : reachable s) by (do 2 apply reachable_step; apply reachable_new).
  split; [exact Hs|].
  destruct (loading_mode_async_iff_provider s Hs) as (Hiff & _).
  assert (Hp : providers s <> []) by (vm_compute; discriminate).
  split; [apply Hiff; exact Hp | exact Hp].
Defined.

(** ** Asynchronous loading *)

Lemma getTranslation_state language s :
  let s' := getTranslation language s in
  serviceState s' = isLoading /\
  counter s' = Z.of_nat (length (providers s)) /\
  translationData s' = ∅ /\
  translationChanged s' = translationChanged s /\
  languageCode s' = languageCode s /\
  console_error s' = console_error s.
Proof.
  unfold getTranslation.
  destruct (requests_frame (fun p => provider_url p language) (providers s)
    (set_counter (Z.of_nat (length (providers s)))
       (set_serviceState isLoading (set_translationData ∅ s))))
    as (_ & _ & Ht & Hs & Hc & He & Hl & Hg).
  simpl in *. rewrite Ht, Hs, Hc, He, Hl, Hg. repeat split.
Qed.

Lemma successes_cons r rs :
  successes (r :: rs) = (if is_success r then 1 else 0) + successes rs.
Proof.
  unfold successes. rewrite filter_cons. destruct r; simpl; reflexivity.
Qed.

Lemma successes_le rs : successes rs <= length rs.
Proof. unfold successes. apply length_filter. Qed.

Lemma successes_all rs :
  forallb is_success rs = true -> successes rs = length rs.
Proof.
  induction rs as [|r rs IH]; [reflexivity|]. simpl.
  intros H. apply andb_prop in H. destruct H as [Hr Hrs].
  rewrite successes_cons, Hr, IH by exact Hrs. reflexivity.
Qed.

Lemma successes_some_failure rs :
  forallb is_success rs = false -> successes rs < length rs.
Proof.
  induction rs as [|r rs IH]; [discriminate|]. simpl.
  rewrite successes_cons. destruct (is_success r); simpl.
  - intros H. apply IH in H. lia.
  - intros _. pose proof (successes_le rs). lia.
Qed.

(** While the counter stays above zero the answers change neither the
    state nor the language code, and no event is sent; each answer that
    completes takes one from the counter, and each failure is logged. *)
Lemma deliver_all_pending language rs s :
  (counter s - Z.of_nat (successes rs) > 0)%Z ->
  let s' := deliver_all language rs s in
  serviceState s' = serviceState s /\
  translationChanged s' = translationChanged s /\
  languageCode s' = languageCode s /\
  counter s' = (counter s - Z.of_nat (successes rs))%Z.
Proof.
  revert s. induction rs as [|r rs IH]; intros s Hc; simpl.
  - unfold successes. simpl. repeat split. lia.
  - rewrite successes_cons in Hc |- *.
    destruct r as [res|e]; simpl in *.
    + assert (Hs : on_complete language (on_next language res s) =
                   set_counter (counter s - 1)%Z (on_next language res s)).
      { unfold on_complete. simpl.
        destruct (counter s - 1 <=? 0)%Z eqn:E; [|reflexivity].
        apply Z.leb_le in E. lia. }
      rewrite Hs.
      destruct (IH (set_counter (counter s - 1)%Z (on_next language res s)))
        as (H1 & H2 & H3 & H4); [simpl; lia|].
      unfold deliver_all in *. rewrite H1, H2, H3, H4. simpl.
      repeat split. lia.
    + destruct (IH (on_error e s)) as (H1 & H2 & H3 & H4); [simpl; lia|].
      unfold deliver_all in *. rewrite H1, H2, H3, H4. simpl.
      repeat split.
Qed.

Lemma deliver_all_app language rs1 rs2 s :
  deliver_all language (rs1 ++ rs2) s =
  deliver_all language rs2 (deliver_all language rs1 s).
Proof. unfold deliver_all. apply fold_left_app. Qed.

(** When every provider answers with data, the service is ready after the
    last answer and not before, and the event is sent once. *)
Lemma all_succeed_ready_once language rs s :
  providers s <> [] ->
  length rs = length (providers s) ->
  forallb is_success rs = true ->
  let s0 := getTranslation language s in
  (forall k, k < length rs ->
     serviceState (deliver_all language (take k rs) s0) = isLoading /\
     translationChanged (deliver_all language (take k rs) s0) =
       translationChanged s) /\
  serviceState (deliver_all language rs s0) = isReady /\
  languageCode (deliver_all language rs s0) = language /\
  translationChanged (deliver_all language rs s0) =
    translationChanged s ++ [language].
Proof.
  intros Hp Hlen Hall s0.
  destruct (getTranslation_state language s) as (Hst & Hc & _ & He & _).
  fold s0 in Hst, Hc, He.
  assert (Hpre : forall k, k < length rs ->
            serviceState (deliver_all language (take k rs) s0) = isLoading /\
            translationChanged (deliver_all language (take k rs) s0) =
              translationChanged s /\
            counter (deliver_all language (take k rs) s0) =
              (Z.of_nat (length rs) - Z.of_nat k)%Z).
  { intros k Hk.
    assert (Hsk : successes (take k rs) = k).
    { rewrite successes_all.
      - rewrite length_take. lia.
      - rewrite <- (take_drop k rs) in Hall. rewrite forallb_app in Hall.
        apply andb_prop in Hall. apply Hall. }
    destruct (deliver_all_pending language (take k rs) s0)
      as (H1 & H2 & _ & H4); [rewrite Hsk, Hc; lia|].
    rewrite H1, H2, H4, Hsk, Hc, Hst, He, Hlen. auto. }
  split; [intros k Hk; destruct (Hpre k Hk) as (H1 & H2 & _); auto|].
  assert (Hn : length rs <> 0).
  { rewrite Hlen. destruct (providers s); [congruence | simpl; lia]. }
  destruct (Hpre (length rs - 1)) as (H1 & H2 & H3); [lia|].
  replace (deliver_all language rs s0)
    with (deliver_all language (drop (length rs - 1) rs)
            (deliver_all language (take (length rs - 1) rs) s0))
    by (rewrite <- deliver_all_app, take_drop; reflexivity).
  destruct (drop (length rs - 1) rs) as [|r [|r' rest]] eqn:Ed.
  - apply (f_equal length) in Ed. rewrite length_drop in Ed. simpl in Ed. lia.
  - assert (Hr : is_success r = true).
    { rewrite <- (take_drop (length rs - 1) rs), Ed, forallb_app in Hall.
      apply andb_prop in Hall. destruct Hall as [_ Hall]. simpl in Hall.
      rewrite andb_true_r in Hall. exact Hall. }
    destruct r as [res|e]; [|discriminate].
    simpl. unfold on_complete. simpl. unfold on_next, addData at 1. simpl.
    rewrite H3.
    replace (Z.of_nat (length rs) - Z.of_nat (length rs - 1) - 1 <=? 0)%Z
      with true by (symmetry; apply Z.leb_le; lia).
    simpl. rewrite H2. auto.
  - apply (f_equal length) in Ed. rewrite length_drop in Ed. simpl in Ed. lia.
Qed.

(** When one provider fails, the counter stays above zero after every
    provider has answered: the service stays in the state of loading, the
    language code is not set and no event is sent. *)
Lemma one_failure_never_ready language rs s :
  length rs = length (providers s) ->
  forallb is_success rs = false ->
  let s' := deliver_all language rs (getTranslation language s) in
  serviceState s' = isLoading /\
  languageCode s' = languageCode s /\
  translationChanged s' = translationChanged s /\
  (counter s' > 0)%Z.
Proof.
  intros Hlen Hf s'.
  destruct (getTranslation_state language s) as (Hst & Hc & _ & He & Hl & _).
  pose proof (successes_some_failure rs Hf) as Hlt.
  destruct (deliver_all_pending language rs (getTranslation language s))
    as (H1 & H2 & H3 & H4); [rewrite Hc; lia|].
  unfold s'. rewrite H1, H2, H3, H4, Hst, He, Hl, Hc. repeat split. lia.
Qed.

(** C1.  One provider is registered, the language "en" is requested and
    the request fails.  The failure is logged and adds no data, but the
    counter is still 1, the service is still loading, the language code
    is not set and [translationChanged] has sent nothing. *)
Theorem failed_provider_leaves_service_loading :
  let s0 := addProvider "./i18n/locale-" None None new_service in
  let s1 := updateTranslation (example_env true) (Some "en") s0 in
  let s2 := deliver "en" (Failure "404 Not Found") s1 in
  http_get s1 = ["./i18n/locale-en.json"] /\
  console_error s2 = ["404 Not Found"] /\
  translationData s2 = ∅ /\
  counter s2 = 1%Z /\
  serviceState s2 = isLoading /\
  languageCode s2 = "" /\
  translationChanged s2 = [].
Proof. vm_compute. repeat split. Qed.

(** ** The translation table *)

Lemma addData_lookup data language s :
  translationData (addData data language s) !! language =
  merge_entry (translationData s !! language) data.
Proof. unfold addData. simpl. rewrite lookup_insert_eq. reflexivity. Qed.

Lemma addData_lookup_ne data language other s :
  other <> language ->
  translationData (addData data language s) !! other =
  translationData s !! other.
Proof.
  intros Hne. unfold addData. simpl. rewrite lookup_insert_ne by congruence.
  reflexivity.
Qed.

Lemma deliver_table language r s :
  translationData (deliver language r s) =
  match r with
  | Success res => translationData (addData res language s)
  | Failure _ => translationData s
  end.
Proof.
  destruct r as [res|e]; simpl; [|reflexivity].
  apply on_complete_frame.
Qed.

Lemma deliver_all_lookup_ne language other rs s :
  other <> language ->
  translationData (deliver_all language rs s) !! other =
  translationData s !! other.
Proof.
  intros Hne. revert s. induction rs as [|r rs IH]; intros s; [reflexivity|].
  change (deliver_all language (r :: rs) s)
    with (deliver_all language rs (deliver language r s)).
  rewrite IH, deliver_table.
  destruct r; [apply addData_lookup_ne; exact Hne | reflexivity].
Qed.

Lemma deliver_all_lookup language rs s :
  translationData (deliver_all language rs s) !! language =
  merged (translationData s !! language) (payloads rs).
Proof.
  revert s. induction rs as [|r rs IH]; intros s; [reflexivity|].
  change (deliver_all language (r :: rs) s)
    with (deliver_all language rs (deliver language r s)).
  rewrite IH, deliver_table.
  destruct r as [res|e]; [|reflexivity].
  rewrite addData_lookup. reflexivity.
Qed.

Lemma step_table env op s :
  translationData (step env op s) = translationData s \/
  translationData (step env op s) = ∅ \/
  exists data language,
    translationData (step env op s) =
    translationData (addData data language s).
Proof.
  destruct op; simpl; try (left; reflexivity).
  - right. right. eauto.
  - left. unfold translationProvider, addProvider. case_match; reflexivity.
  - left. unfold addProvider. case_match; reflexivity.
  - unfold updateTranslation.
    match goal with |- context [if ?c then _ else _] => destruct c end;
      [|left; reflexivity].
    destruct (loadingMode s); [left; reflexivity|].
    right. left. apply getTranslation_state.
  - rewrite deliver_table. destruct r; [right; right; eauto | left; reflexivity].
Qed.

(** C4, as the code has it.  [getTranslation] drops the data of every
    language.  The answers to its requests then build the entry of the
    requested language only, by merging their data in the order of
    arrival, so that afterwards no other language has an entry.  A merge
    by [addData] touches the entry of its language only, and a call
    changes the table in no other way than by such a merge or by the reset
    in [getTranslation]. *)
Theorem reload_resets_table_and_rebuilds_one_entry language other rs s :
  other <> language ->
  translationData (getTranslation language s) = ∅ /\
  translationData (deliver_all language rs (getTranslation language s))
    !! other = None /\
  translationData (deliver_all language rs (getTranslation language s))
    !! language = merged None (payloads rs) /\
  (forall data,
     translationData (addData data language s) !! other =
     translationData s !! other) /\
  (forall env op,
     translationData (step env op s) = translationData s \/
     translationData (step env op s) = ∅ \/
     exists data l,
       translationData (step env op s) = translationData (addData data l s)).
Proof.
  intros Hne.
  assert (He : translationData (getTranslation language s) = ∅)
    by apply getTranslation_state.
  split; [exact He|]. split; [|split; [|split]].
  - rewrite deliver_all_lookup_ne, He by exact Hne. apply lookup_empty.
  - rewrite deliver_all_lookup, He, lookup_empty. reflexivity.
  - intros data. apply addData_lookup_ne. exact Hne.
  - intros env op. apply step_table.
Qed.

Lemma reload_resets_table_and_rebuilds_one_entry_witness :
  translationData
    (deliver_all "it" [Success [("hello", JStr "Ciao")]]
       (getTranslation "it"
          (addTranslation "en" [("hello", JStr "Hello")]
             (addProvider "./i18n/locale-" None None new_service))))
    !! "en" = None.
Proof.
  apply (reload_resets_table_and_rebuilds_one_entry "it" "en"
           [Success [("hello", JStr "Ciao")]]
           (addTranslation "en" [("hello", JStr "Hello")]
              (addProvider "./i18n/locale-" None None new_service))).
  discriminate.
Defined.

(** C4, as the claim has it, fails.  The language "en" is loaded through
    a provider; the request for "it" that follows drops the entry of "en"
    at once, before any answer for "it" has come. *)
Lemma reload_drops_other_language :
  let s0 := addProvider "./i18n/locale-" None None new_service in
  let s1 := deliver "en" (Success [("hello", JStr "Hello")])
              (updateTranslation (example_env true) (Some "en") s0) in
  let s2 := updateTranslation (example_env true) (Some "it") s1 in
  translationData s1 !! "en" = Some [("hello", JStr "Hello")] /\
  translationData s2 !! "en" = None /\
  translationData s2 !! "en" <> translationData s1 !! "en".
Proof. vm_compute. repeat split. discriminate. Qed.

(** ** Merging translation data *)

Lemma prop_get_set o k v k' :
  prop_get (prop_set o k v) k' = if String.eqb k' k then v else prop_get o k'.
Proof.
  induction o as [|[k0 v0] o IH]; simpl.
  - destruct (String.eqb k' k); reflexivity.
  - destruct (String.eqb k k0) eqn:E; simpl.
    + apply String.eqb_eq in E. subst k0.
      destruct (String.eqb k' k); reflexivity.
    + destruct (String.eqb k' k0) eqn:E'.
      * apply String.eqb_eq in E'. subst k0.
        rewrite String.eqb_sym, E. reflexivity.
      * exact IH.
Qed.

Lemma prop_has_false o k : prop_has o k = false -> prop_get o k = JUndefined.
Proof.
  induction o as [|[k0 v0] o IH]; simpl; [reflexivity|].
  destruct (String.eqb k k0); simpl; [discriminate | exact IH].
Qed.

Lemma prop_has_keys o k : prop_has o k = existsb (String.eqb k) (map fst o).
Proof.
  induction o as [|[k0 v0] o IH]; simpl; [reflexivity|]. rewrite IH. reflexivity.
Qed.

Lemma copy_keys_get (o : obj) ks newObj k :
  prop_get
    (fold_left (fun acc key => prop_set acc key (prop_get o key)) ks newObj) k =
  if existsb (String.eqb k) ks then prop_get o k else prop_get newObj k.
Proof.
  revert newObj. induction ks as [|k0 ks IH]; intros newObj; simpl.
  - reflexivity.
  - rewrite IH, prop_get_set.
    destruct (String.eqb k k0) eqn:E; simpl.
    + apply String.eqb_eq in E. subst k0.
      destruct (existsb _ ks); reflexivity.
    + reflexivity.
Qed.

Lemma copy_fields_get newObj o k :
  prop_get (copy_fields newObj o) k =
  if prop_has o k then prop_get o k else prop_get newObj k.
Proof. unfold copy_fields. rewrite copy_keys_get, prop_has_keys. reflexivity. Qed.

Lemma extend_get a b k :
  prop_get (extend [a; b]) k =
  if prop_has b k then prop_get b k else prop_get a k.
Proof.
  unfold extend. simpl. rewrite !copy_fields_get.
  destruct (prop_has b k); [reflexivity|].
  destruct (prop_has a k) eqn:E; [reflexivity|].
  rewrite (prop_has_false a k E). reflexivity.
Qed.

Lemma addData_get data language s key :
  prop_get (entry language (addData data language s)) key =
  if prop_has data key then prop_get data key
  else prop_get (entry language s) key.
Proof.
  unfold entry. rewrite addData_lookup. unfold merge_entry. simpl.
  destruct (translationData s !! language) as [old|]; simpl.
  - apply extend_get.
  - destruct (prop_has data key) eqn:E; [reflexivity|].
    apply prop_has_false. exact E.
Qed.

(** C7.  [addData], and [addTranslation] which calls it, merge the data
    into the entry of the language field by field at the top level, the
    later writer winning: a field of the new data has the new value, which
    is taken whole also when it is an object, and any other field keeps
    the value it had.  So after [{"x":"1"}] and then [{"y":"2"}] both
    fields are there, and after [{"x":"1"}] and then [{"x":"2"}] the field
    [x] is ["2"]. *)
Theorem addData_merges_last_writer_wins language s :
  (forall data key,
     prop_get (entry language (addData data language s)) key =
     if prop_has data key then prop_get data key
     else prop_get (entry language s) key) /\
  (forall data, addTranslation language data s = addData data language s) /\
  (let s' := addData [("y", JStr "2")] language
               (addData [("x", JStr "1")] language s) in
   prop_get (entry language s') "x" = JStr "1" /\
   prop_get (entry language s') "y" = JStr "2") /\
  (let s' := addData [("x", JStr "2")] language
               (addData [("x", JStr "1")] language s) in
   prop_get (entry language s') "x" = JStr "2") /\
  (let s' := addData [("a", JObj [("c", JStr "2")])] language
               (addData [("a", JObj [("b", JStr "1")])] language s) in
   prop_get (entry language s') "a" = JObj [("c", JStr "2")]).
Proof.
  split; [intros; apply addData_get|].
  split; [reflexivity|].
  repeat split; simpl; rewrite !addData_get; reflexivity.
Qed.

(** ** Collation that is not supported *)

(** C9.  When [IntlSupport.Collator] answers false for the current
    language, [compare] returns 0 and [sort] and [search] return the list
    they were given, with the objects untouched; none of them throws. *)
Theorem unsupported_collation_is_neutral fuel env s h key1 key2 query
  list_ keyName keyNames order extension options :
  IntlSupport_Collator env (getCurrentLanguage env) = false ->
  compare fuel env s key1 key2 extension options = Ok 0%Z /\
  sort fuel env s h list_ keyName order extension options = Ok (list_, h) /\
  search fuel env s h query list_ keyNames options = Ok (list_, h).
Proof.
  intros H. unfold compare, sort, search. rewrite H. simpl.
  rewrite orb_true_r.
  split; [reflexivity|].
  split; [destruct list_, keyName | destruct list_, keyNames]; reflexivity.
Qed.

Lemma unsupported_collation_is_neutral_witness :
  let h : gmap nat obj := {[ 0 := [("position", JStr "Accountant")] ]} in
  compare 2 (example_env false) new_service (JStr "a") (JStr "b") None None
    = Ok 0%Z /\
  sort 2 (example_env false) new_service h (Some [0]) (Some "position")
    None None None = Ok (Some [0], h) /\
  search 2 (example_env false) new_service h "Acc" (Some [0])
    (Some ["position"]) None = Ok (Some [0], h).
Proof.
  intros h.
  apply (unsupported_collation_is_neutral 2 (example_env false) new_service h
           (JStr "a") (JStr "b") "Acc" (Some [0]) (Some "position")
           (Some ["position"]) None None None).
  reflexivity.
Defined.

(** ** The matching algorithm *)

Section MatchingProperties.

Variable collator : string -> string -> Z.

(** What the loop returns: it ends by [break] exactly when a round
    matches, [i] is then the first position that matches, and otherwise
    every position has been tried. *)
Lemma match_loop_spec n i v s :
  match match_loop collator n i v s with
  | (true, k) =>
      i <= k < i + n /\ matches_at collator v s k /\
      forall j, i <= j < k -> ~ matches_at collator v s j
  | (false, k) =>
      k = i + n /\ forall j, i <= j < i + n -> ~ matches_at collator v s j
  end.
Proof.
  revert i. induction n as [|n IH]; intros i; simpl.
  - split; [lia|]. intros j Hj. lia.
  - destruct (collator (substr v i (String.length s)) s =? 0)%Z eqn:E.
    + apply Z.eqb_eq in E. split; [lia|]. split; [exact E|].
      intros j Hj. lia.
    + apply Z.eqb_neq in E. specialize (IH (S i)).
      destruct (match_loop collator n (S i) v s) as [[|] k].
      * destruct IH as (Hk & Hm & Hfirst). split; [lia|]. split; [exact Hm|].
        intros j Hj. destruct (Nat.eq_dec j i) as [->|Hne]; [exact E|].
        apply Hfirst. lia.
      * destruct IH as (Hk & Hnone). split; [lia|].
        intros j Hj. destruct (Nat.eq_dec j i) as [->|Hne]; [exact E|].
        apply Hnone. lia.
Qed.

Lemma match_rounds_shorter v s :
  String.length s < String.length v ->
  match_rounds v s = String.length v - String.length s + 1.
Proof. intros H. unfold match_rounds. lia. Qed.

Lemma substr_whole v : substr v 0 (String.length v) = v.
Proof.
  unfold substr. induction v as [|c v IH]; simpl; [reflexivity|].
  rewrite IH. reflexivity.
Qed.

Lemma match_longer v s :
  String.length v < String.length s -> match_ collator v s = false.
Proof.
  intros H. unfold match_.
  destruct (Nat.ltb_spec (String.length v) (String.length s)); [reflexivity|lia].
Qed.

End MatchingProperties.

(** In [search]: when every translated value of every record is a string
    shorter than the string searched, no record is kept. *)
Lemma found_in_longer_query collator number h v translated s :
  (forall t, In t translated ->
     exists x, read_field h v t = Ok (JStr x) /\
               String.length x < String.length s) ->
  found_in collator number h v translated s = Ok false.
Proof.
  induction translated as [|t translated IH]; intros H; [reflexivity|].
  cbn [found_in].
  destruct (H t) as (x & Hx & Hlen); [left; reflexivity|].
  rewrite Hx. cbn [bind match_value].
  rewrite (match_longer collator x s Hlen).
  apply IH. intros t' Ht'. apply H. right. exact Ht'.
Qed.

Lemma filter_matches_longer_query collator number h l translated s :
  (forall v t, In v l -> In t translated ->
     exists x, read_field h v t = Ok (JStr x) /\
               String.length x < String.length s) ->
  filter_matches collator number h l translated s = Ok [].
Proof.
  induction l as [|v l IH]; intros H; [reflexivity|].
  cbn [filter_matches].
  rewrite found_in_longer_query
    by (intros t Ht; apply (H v t); [left; reflexivity | exact Ht]).
  cbn [bind]. rewrite IH; [reflexivity|].
  intros v' t Hv' Ht. apply H; [right; exact Hv' | exact Ht].
Qed.


(** C6.  [match] by the lengths of the value [v] and of the string [s]
    searched.  When [s] is longer the answer is false.  When the lengths
    are equal the answer is true exactly when the two strings collate
    equal.  When [s] is shorter the answer is true exactly when a
    substring of [v] of the length of [s] collates equal to [s]; the
    positions are tried from the left and the loop ends at the first one
    that matches, or after the last one when none does.  Hence a string
    longer than every value of a list matches none of them. *)
Theorem match_by_length collator (v s : string) :
  match Nat.compare (String.length s) (String.length v) with
  | Gt => match_ collator v s = false
  | Eq => match_ collator v s = true <-> collator v s = 0%Z
  | Lt =>
      (match_ collator v s = true <->
       exists j, j + String.length s <= String.length v /\
                 collator (substr v j (String.length s)) s = 0%Z) /\
      (let '(found, i) := match_loop collator (match_rounds v s) 0 v s in
       match_ collator v s = found /\
       (forall j, j < i ->
          collator (substr v j (String.length s)) s <> 0%Z) /\
       if found
       then collator (substr v i (String.length s)) s = 0%Z
       else i = String.length v - String.length s + 1)
  end /\
  (forall values,
     forallb (fun x => Nat.ltb (String.length x) (String.length s)) values
       = true ->
     filter (fun x => match_ collator x s = true) values = []).
Proof.
  split.
  - destruct (Nat.compare_spec (String.length s) (String.length v)) as [E|L|G].
    + unfold match_. rewrite E, Nat.ltb_irrefl, Nat.eqb_refl.
      apply Z.eqb_eq.
    + assert (Hm : match_ collator v s =
                   fst (match_loop collator (match_rounds v s) 0 v s)).
      { unfold match_.
        destruct (Nat.ltb_spec (String.length v) (String.length s)); [lia|].
        destruct (Nat.eqb_spec (String.length s) (String.length v)); [lia|].
        reflexivity. }
      pose proof (match_loop_spec collator (match_rounds v s) 0 v s) as Hl.
      rewrite (match_rounds_shorter v s L) in Hl, Hm |- *.
      destruct (match_loop collator
                  (String.length v - String.length s + 1) 0 v s)
        as [[|] k]; simpl in Hm.
      * destruct Hl as (Hk & Hmk & Hfirst). split.
        -- rewrite Hm. split; [intros _ | reflexivity].
           exists k. split; [lia | exact Hmk].
        -- split; [exact Hm|]. split; [|exact Hmk].
           intros j Hj. apply Hfirst. lia.
      * destruct Hl as (Hk & Hnone). split.
        -- rewrite Hm. split; [discriminate|].
           intros (j & Hj & Hmj). exfalso. apply (Hnone j); [lia | exact Hmj].
        -- split; [exact Hm|]. split; [|lia].
           intros j Hj. apply Hnone. lia.
    + apply match_longer. exact G.
  - induction values as [|x values IH]; intros H; [reflexivity|].
    simpl in H. apply andb_prop in H. destruct H as [Hx Hv].
    rewrite filter_cons, (IH Hv).
    apply Nat.ltb_lt in Hx. rewrite (match_longer collator x s Hx).
    destruct (decide (false = true)); [discriminate | reflexivity].
Qed.

(** ** Composed keys *)

Lemma append_nil (b : string) : "" +:+ b = b.
Proof. reflexivity. Qed.

Lemma append_cons c (a b : string) : String c a +:+ b = String c (a +:+ b).
Proof. reflexivity. Qed.

Lemma append_assoc (a b c : string) : (a +:+ b) +:+ c = a +:+ (b +:+ c).
Proof.
  induction a as [|x a IH]; [reflexivity|].
  rewrite !append_cons, IH. reflexivity.
Qed.

Lemma append_empty_r (a : string) : a +:+ "" = a.
Proof.
  induction a as [|x a IH]; [reflexivity|]. rewrite append_cons, IH. reflexivity.
Qed.

Lemma length_append (a b : string) :
  String.length (a +:+ b) = String.length a + String.length b.
Proof.
  induction a as [|x a IH]; [reflexivity|].
  rewrite append_cons. simpl. rewrite IH. reflexivity.
Qed.

Lemma prefix_dot c s : String.prefix "." (String c s) = Ascii.eqb c ".".
Proof.
  cbn [String.prefix]. destruct (ascii_dec "." c) as [E|E].
  - subst c. destruct s; reflexivity.
  - symmetry. apply Ascii.eqb_neq. congruence.
Qed.

(** A segment without a point, followed by a point, is cut off. *)
Lemma split_at_segment cur k rest :
  free_of "." k = true ->
  split_at "." 0 cur (k +:+ "." +:+ rest) =
  (cur +:+ k) :: split_at "." 0 "" rest.
Proof.
  revert cur. induction k as [|c k IH]; intros cur Hk.
  - rewrite append_empty_r, append_nil, append_cons, append_nil.
    cbn [split_at]. rewrite prefix_dot. reflexivity.
  - simpl in Hk. apply andb_prop in Hk. destruct Hk as [Hc Hk].
    rewrite append_cons. cbn [split_at]. rewrite prefix_dot.
    apply negb_true_iff in Hc. rewrite Hc.
    rewrite IH by exact Hk. rewrite append_assoc. reflexivity.
Qed.


Lemma split_segment k rest :
  free_of "." k = true ->
  split (k +:+ "." +:+ rest) (Some ".") = k :: split rest (Some ".").
Proof. intros Hk. unfold split. apply split_at_segment. exact Hk. Qed.



Lemma descend_step_other translation k :
  is_mapping (prop_get translation k) = false ->
  descend_step translation (JStr k) = translation.
Proof.
  intros H. unfold descend_step. simpl.
  destruct (prop_get translation k); try reflexivity. discriminate.
Qed.


Lemma find_value_composed s t (key : string) language :
  translationData s !! language = Some t ->
  composedKey s = true ->
  find_value s (JStr key) language =
  let '(key', t') := descend (split key (keySeparator s)) t in
  Ok (key', prop_get t' (to_string key')).
Proof. intros Ht Hc. unfold find_value. rewrite Ht, Hc. reflexivity. Qed.

Lemma split_free k : free_of "." k = true -> split k (Some ".") = [k].
Proof.
  intros Hk. unfold split.
  assert (H : forall cur, split_at "." 0 cur k = [cur +:+ k]).
  { induction k as [|c k IH]; intros cur.
    - rewrite append_empty_r. reflexivity.
    - simpl in Hk. apply andb_prop in Hk. destruct Hk as [Hc Hk].
      cbn [split_at]. rewrite prefix_dot.
      apply negb_true_iff in Hc. rewrite Hc.
      rewrite IH by exact Hk. rewrite append_assoc. reflexivity. }
  apply (H "").
Qed.




(** ** Parameters *)

Module TemplateProperties.
Import Template.

Lemma name_not_space c : is_name c = true -> is_space c = false.
Proof.
  unfold is_name. intros H. apply negb_true_iff in H.
  apply orb_false_iff in H. apply H.
Qed.

Lemma space_not_name c : is_space c = true -> is_name c = false.
Proof.
  unfold is_name. intros H. rewrite H, orb_true_r. reflexivity.
Qed.

Lemma eat_space_spec s w r :
  eat_space s = (w, r) -> s = w +:+ r /\ optional_space w = true.
Proof.
  destruct s as [|c s]; simpl.
  - intros [= <- <-]. split; reflexivity.
  - destruct (is_space c) eqn:E; intros [= <- <-]; split; try reflexivity.
    simpl. exact E.
Qed.

Lemma eat_name_spec s : forall n r,
  eat_name s = (n, r) -> s = n +:+ r /\ all_name n = true.
Proof.
  induction s as [|c s IH]; intros n r; simpl.
  - intros [= <- <-]. split; reflexivity.
  - destruct (is_name c) eqn:E.
    + destruct (eat_name s) as [n' r'] eqn:En. intros [= <- <-].
      destruct (IH n' r' eq_refl) as [-> Hn]. split; [reflexivity|].
      simpl. rewrite E. exact Hn.
    + intros [= <- <-]. split; reflexivity.
Qed.

Lemma eat_name_app n r :
  all_name n = true -> stops_name r = true -> eat_name (n +:+ r) = (n, r).
Proof.
  intros Hn Hr. induction n as [|c n IH].
  - rewrite append_nil. destruct r as [|c r]; [reflexivity|].
    simpl in *. apply negb_true_iff in Hr. rewrite Hr. reflexivity.
  - simpl in Hn. apply andb_prop in Hn. destruct Hn as [Hc Hn].
    rewrite append_cons. simpl. rewrite Hc, (IH Hn). reflexivity.
Qed.

Lemma eat_space_none r :
  match r with String c _ => is_space c = false | EmptyString => True end ->
  eat_space r = ("", r).
Proof. destruct r as [|c r]; [reflexivity|]. simpl. intros ->. reflexivity. Qed.

Lemma placeholder_length w1 name w2 :
  String.length (placeholder w1 name w2) =
  2 + String.length w1 + String.length name + String.length w2 + 2.
Proof.
  unfold placeholder. rewrite !length_append. simpl. lia.
Qed.

Lemma placeholder_app w1 name w2 rest :
  placeholder w1 name w2 +:+ rest =
  String "{" (String "{" (w1 +:+ name +:+ w2 +:+ String "}" (String "}" rest))).
Proof.
  unfold placeholder. rewrite !append_assoc. reflexivity.
Qed.

(** A parameter at the head of a string is matched, with its name and
    its whole length. *)
Lemma match_here_placeholder w1 name w2 rest :
  optional_space w1 = true -> all_name name = true ->
  optional_space w2 = true ->
  match_here (placeholder w1 name w2 +:+ rest) =
  Some (name, String.length (placeholder w1 name w2)).
Proof.
  intros H1 Hn H2. rewrite placeholder_app, placeholder_length.
  cbn [match_here]. change (Ascii.eqb "{" "{") with true. cbn [andb].
  assert (Hclose : forall r, eat_space (String "}" r) = ("", String "}" r))
    by reflexivity.
  assert (Hw2 : forall r,
            eat_space (w2 +:+ String "}" r) = (w2, String "}" r)).
  { intros r. destruct w2 as [|c [|c' w2]]; try discriminate.
    - apply Hclose.
    - simpl in H2. rewrite append_cons, append_nil. simpl. rewrite H2.
      reflexivity. }
  assert (Hstop : stops_name (w2 +:+ String "}" (String "}" rest)) = true).
  { destruct w2 as [|c [|c' w2]]; try discriminate; [reflexivity|].
    simpl in H2. rewrite append_cons. simpl.
    rewrite (space_not_name c H2). reflexivity. }
  assert (Hend : forall r, eat_name (String "}" r) = ("", String "}" r))
    by reflexivity.
  destruct w1 as [|c [|c' w1]]; try discriminate.
  - rewrite append_nil. destruct name as [|c name].
    + rewrite append_nil, Hw2. cbv beta iota zeta.
      rewrite Hend. cbv beta iota zeta.
      rewrite Hclose. cbv beta iota zeta.
      change (Ascii.eqb "}" "}") with true. cbn [andb].
      f_equal. f_equal. simpl. lia.
    + simpl in Hn. pose proof Hn as Hn'.
      apply andb_prop in Hn'. destruct Hn' as [Hc _].
      rewrite append_cons. rewrite eat_space_none
        by (apply name_not_space; exact Hc).
      cbv beta iota zeta.
      rewrite <- append_cons. rewrite eat_name_app by assumption.
      cbv beta iota zeta.
      rewrite Hw2. cbv beta iota zeta.
      change (Ascii.eqb "}" "}") with true. cbn [andb].
      reflexivity.
  - simpl in H1. rewrite append_cons, append_nil.
    cbn [eat_space]. rewrite H1. cbv beta iota zeta.
    rewrite eat_name_app by assumption. cbv beta iota zeta.
    rewrite Hw2. cbv beta iota zeta.
    change (Ascii.eqb "}" "}") with true. cbn [andb].
    reflexivity.
Qed.

(** A match at the head of a string is a parameter. *)
Lemma match_here_inv s name len :
  match_here s = Some (name, len) ->
  exists w1 w2 rest,
    optional_space w1 = true /\ all_name name = true /\
    optional_space w2 = true /\
    s = placeholder w1 name w2 +:+ rest /\
    len = String.length (placeholder w1 name w2).
Proof.
  destruct s as [|c0 [|c1 s1]]; try discriminate. cbn [match_here].
  destruct (Ascii.eqb c0 "{") eqn:E0; [|discriminate].
  destruct (Ascii.eqb c1 "{") eqn:E1; [|discriminate]. cbn [andb].
  apply Ascii.eqb_eq in E0, E1. subst c0 c1.
  destruct (eat_space s1) as [w1 s2] eqn:Ew1.
  destruct (eat_name s2) as [n s3] eqn:En.
  destruct (eat_space s3) as [w2 s4] eqn:Ew2.
  destruct s4 as [|c2 [|c3 rest]]; try discriminate.
  destruct (Ascii.eqb c2 "}") eqn:E2; [|discriminate].
  destruct (Ascii.eqb c3 "}") eqn:E3; [|discriminate]. cbn [andb].
  apply Ascii.eqb_eq in E2, E3. subst c2 c3.
  intros [= <- <-].
  apply eat_space_spec in Ew1, Ew2. apply eat_name_spec in En.
  destruct Ew1 as [-> H1], Ew2 as [-> H2], En as [-> Hn].
  exists w1, w2, rest. rewrite placeholder_app, placeholder_length.
  repeat split; assumption.
Qed.

Lemma match_here_positive s name len :
  match_here s = Some (name, len) -> 0 < len.
Proof.
  intros H. apply match_here_inv in H.
  destruct H as (w1 & w2 & rest & _ & _ & _ & _ & ->).
  rewrite placeholder_length. lia.
Qed.

(** The scan goes on behind a match. *)
Lemma replace_from_skip f k s :
  replace_from f k s = replace_from f 0 (string_drop k s).
Proof.
  revert k. induction s as [|c s IH]; intros k.
  - destruct k; reflexivity.
  - destruct k as [|k]; [reflexivity|]. cbn [replace_from string_drop].
    apply IH.
Qed.

Lemma replace_scan f s :
  replace f s =
  match match_here s with
  | Some (name, len) =>
      f (substr s 0 len) name +:+ replace f (string_drop len s)
  | None =>
      match s with
      | EmptyString => ""
      | String c s' => String c (replace f s')
      end
  end.
Proof.
  unfold replace. destruct s as [|c s]; [reflexivity|].
  cbn [replace_from].
  destruct (match_here (String c s)) as [[name len]|] eqn:E; [|reflexivity].
  apply match_here_positive in E. destruct len as [|len]; [lia|].
  cbn [Nat.pred string_drop]. rewrite replace_from_skip. reflexivity.
Qed.

Lemma substr_prefix (a b : string) : substr (a +:+ b) 0 (String.length a) = a.
Proof.
  unfold substr. induction a as [|c a IH].
  - rewrite append_nil. destruct b; reflexivity.
  - rewrite append_cons. cbn [String.length String.substring].
    rewrite IH. reflexivity.
Qed.

Lemma string_drop_prefix (a b : string) :
  string_drop (String.length a) (a +:+ b) = b.
Proof.
  induction a as [|c a IH].
  - rewrite append_nil. destruct b; reflexivity.
  - rewrite append_cons. cbn [String.length string_drop]. exact IH.
Qed.

(** One step of the scan at a parameter, and at any other code unit. *)
Lemma replace_placeholder f w1 name w2 rest :
  optional_space w1 = true -> all_name name = true ->
  optional_space w2 = true ->
  replace f (placeholder w1 name w2 +:+ rest) =
  f (placeholder w1 name w2) name +:+ replace f rest.
Proof.
  intros H1 Hn H2. rewrite replace_scan.
  rewrite match_here_placeholder by assumption.
  rewrite substr_prefix, string_drop_prefix. reflexivity.
Qed.

End TemplateProperties.

(** C8.  On a value that is a string and not empty, with arguments,
    [translate] returns the value in which the parameters are replaced.
    The value is scanned from the left.  Where a parameter starts (two
    opening braces, a name without braces and white space with at most one
    white space on each side, two closing braces) it is replaced by the
    argument of its name when the arguments have one that is defined, and
    kept as it is otherwise, and the scan goes on behind the parameter;
    any other code unit is kept.  So "Hi {{name}}" gives "Hi Sam" with the
    arguments [{name: "Sam"}] and is unchanged with [{}]. *)
Theorem translate_replaces_parameters (args : obj) :
  (forall fuel s key lang key' v,
     find_value s key lang = Ok (key', JStr v) -> v <> "" ->
     translate (S fuel) s key (Some args) lang =
     Ok (JStr (Template.replace (parameter args) v))) /\
  (forall v,
     Template.replace (parameter args) v =
     match Template.match_here v with
     | Some (name, len) =>
         parameter args (substr v 0 len) name
         +:+ Template.replace (parameter args) (Template.string_drop len v)
     | None =>
         match v with
         | EmptyString => ""
         | String c v' => String c (Template.replace (parameter args) v')
         end
     end) /\
  (forall v name len,
     Template.match_here v = Some (name, len) <->
     exists w1 w2 rest,
       Template.optional_space w1 = true /\ Template.all_name name = true /\
       Template.optional_space w2 = true /\
       v = Template.placeholder w1 name w2 +:+ rest /\
       len = String.length (Template.placeholder w1 name w2)) /\
  (forall w1 name w2 rest,
     Template.optional_space w1 = true -> Template.all_name name = true ->
     Template.optional_space w2 = true ->
     Template.replace (parameter args)
       (Template.placeholder w1 name w2 +:+ rest) =
     (if defined (prop_get args name) then to_string (prop_get args name)
      else Template.placeholder w1 name w2)
     +:+ Template.replace (parameter args) rest) /\
  translate 1
    (addTranslation "en" [("greeting", JStr "Hi {{name}}")] new_service)
    (JStr "greeting") (Some [("name", JStr "Sam")]) "en" = Ok (JStr "Hi Sam") /\
  translate 1
    (addTranslation "en" [("greeting", JStr "Hi {{name}}")] new_service)
    (JStr "greeting") (Some []) "en" = Ok (JStr "Hi {{name}}") /\
  translate 1
    (addTranslation "en" [("greeting", JStr "Hi {{ name }}")] new_service)
    (JStr "greeting") (Some [("name", JStr "Sam")]) "en" = Ok (JStr "Hi Sam").
Proof.
  split; [|split; [|split; [|split]]].
  - intros fuel s key lang key' v Hf Hv. cbn [translate]. rewrite Hf.
    cbn [bind]. unfold is_missing. cbn [eq_null eq_empty orb].
    destruct (String.eqb_spec v ""); [contradiction | reflexivity].
  - intros v. apply TemplateProperties.replace_scan.
  - intros v name len. split.
    + apply TemplateProperties.match_here_inv.
    + intros (w1 & w2 & rest & H1 & Hn & H2 & -> & ->).
      apply TemplateProperties.match_here_placeholder; assumption.
  - intros w1 name w2 rest H1 Hn H2.
    rewrite TemplateProperties.replace_placeholder by assumption.
    reflexivity.
  - repeat split; reflexivity.
Qed.

(** ** Missing keys *)

(** What [translate] does on a miss: [key'] is the key that the lookup
    has left in [key]. *)
Lemma translate_missing fuel s key args lang key' value :
  find_value s key lang = Ok (key', value) ->
  is_missing value = true ->
  translate (S fuel) s key args lang =
  if truthy (missingKey s)
  then translate fuel s (JStr (default "" (missingKey s))) args lang
  else if truthy (missingValue s)
  then Ok (JStr (default "" (missingValue s)))
  else Ok key'.
Proof.
  intros Hf Hm. cbn [translate]. rewrite Hf. cbn [bind]. rewrite Hm.
  reflexivity.
Qed.

(** Without data for the language the key is left as it was given. *)
Lemma find_value_no_data s key lang :
  translationData s !! lang = None ->
  find_value s key lang = Ok (key, JUndefined).
Proof. intros H. unfold find_value. rewrite H. reflexivity. Qed.

(** With data for the language, a key of two segments that is not found
    is left as its last segment. *)
Lemma find_value_last_segment s t lang a b :
  translationData s !! lang = Some t ->
  composedKey s = true -> keySeparator s = Some "." ->
  free_of "." a = true -> free_of "." b = true ->
  exists value,
    find_value s (JStr (a +:+ "." +:+ b)) lang = Ok (JStr b, value).
Proof.
  intros Ht Hc Hsep Ha Hb.
  rewrite (find_value_composed s t) by assumption.
  rewrite Hsep, split_segment, split_free by assumption.
  cbn [descend]. eauto.
Qed.

(** A key for missing keys that is itself missing: the recursion has no
    end, whatever the key. *)
Lemma missing_fallback_key_diverges s args lang mk key' value :
  missingKey s = Some mk -> mk <> "" ->
  find_value s (JStr mk) lang = Ok (key', value) ->
  is_missing value = true ->
  forall fuel, translate fuel s (JStr mk) args lang = OutOfFuel.
Proof.
  intros Hmk Hne Hf Hm fuel. induction fuel as [|fuel IH]; [reflexivity|].
  rewrite (translate_missing fuel s (JStr mk) args lang key' value Hf Hm).
  rewrite Hmk. cbn [truthy default].
  destruct (String.eqb_spec mk ""); [contradiction|]. cbn [negb]. exact IH.
Qed.

(** C3.  The data of "en" is loaded and holds no key "app.title"; no key
    and no value for missing keys are set.  [translate] returns "title",
    the last segment of the key, and not the key "app.title" it was given.
    With a key "missing" set for missing keys that the data does not hold
    either, [translate] has no result for any fuel: the recursion on the
    key for missing keys does not end. *)
Theorem missing_composed_key_returns_last_segment :
  let s := addTranslation "en" [("hello", JStr "Hello")] new_service in
  find_value s (JStr "app.title") "en" = Ok (JStr "title", JUndefined) /\
  missingKey s = None /\ missingValue s = None /\
  translate 1 s (JStr "app.title") None "en" = Ok (JStr "title") /\
  translate 1 s (JStr "app.title") None "en" <> Ok (JStr "app.title") /\
  (forall fuel,
     translate fuel (setMissingKey "missing" s) (JStr "app.title") None "en"
     = OutOfFuel).
Proof.
  intros s. split; [reflexivity|]. split; [reflexivity|].
  split; [reflexivity|]. split; [reflexivity|]. split; [discriminate|].
  intros [|fuel]; [reflexivity|].
  rewrite (translate_missing fuel (setMissingKey "missing" s)
             (JStr "app.title") None "en" (JStr "title") JUndefined)
    by reflexivity.
  cbn [truthy default setMissingKey set_missing missingKey String.eqb negb].
  apply (missing_fallback_key_diverges (setMissingKey "missing" s) None "en"
           "missing" (JStr "missing") JUndefined); try reflexivity.
  discriminate.
Qed.

(** ** The column of translated values *)

Lemma indexOf_none l x i : indexOf l x i = None.
Proof.
  revert i. induction l as [|item l IH]; intros i; [reflexivity|].
  cbn [indexOf strict_equals_string]. apply IH.
Qed.

(** The removal of the column removes nothing. *)
Lemma remove_column_same l translated : remove_column l translated = l.
Proof. unfold remove_column. rewrite indexOf_none. reflexivity. Qed.

Lemma prop_has_set o k v k' :
  prop_has (prop_set o k v) k' = String.eqb k' k || prop_has o k'.
Proof.
  induction o as [|[k0 v0] o IH]; simpl.
  - reflexivity.
  - destruct (String.eqb k k0) eqn:E; simpl.
    + apply String.eqb_eq in E. subst k0.
      destruct (String.eqb k' k); reflexivity.
    + rewrite IH. destruct (String.eqb k' k0), (String.eqb k' k); reflexivity.
Qed.

(** After the loop every object of the list has the column, and an object
    that had it keeps it. *)
Lemma translate_items_column fuel s keyName translated l :
  forall h h',
    translate_items fuel s keyName translated l h = Ok h' ->
    (forall item, In item l -> has_column h' translated item) /\
    (forall item, has_column h translated item ->
                  has_column h' translated item).
Proof.
  induction l as [|x l IH]; intros h h'; cbn [translate_items].
  - intros [= <-]. split; [intros item []|auto].
  - destruct (h !! x) as [o|] eqn:Ex; [|discriminate].
    destruct (translate fuel s (prop_get o keyName) None (languageCode s))
      as [value| |]; cbn [bind]; try discriminate.
    intros H. destruct (IH _ _ H) as [Hin Hkeep].
    assert (Hx : has_column (<[x:=prop_set o translated value]> h)
                   translated x).
    { exists (prop_set o translated value). split.
      - apply lookup_insert_eq.
      - rewrite prop_has_set, String.eqb_refl. reflexivity. }
    split.
    + intros item [<-|Hi]; [apply Hkeep; exact Hx | apply Hin; exact Hi].
    + intros item (o' & Ho' & Hc). apply Hkeep.
      destruct (decide (item = x)) as [->|Hne]; [exact Hx|].
      exists o'. split; [|exact Hc].
      rewrite lookup_insert_ne by congruence. exact Ho'.
Qed.

(** Whenever [sort] goes through the list, every object of the list
    still has the column of translated values when [sort] returns. *)
Lemma sort_keeps_column fuel env s h l keyName order extension options l' h' :
  IntlSupport_Collator env (getCurrentLanguage env) = true ->
  sort fuel env s h (Some l) (Some keyName) order extension options
    = Ok (l', h') ->
  forall item, In item l ->
    has_column h' (keyName +:+ "Translated") item.
Proof.
  intros Hs. unfold sort. rewrite Hs. cbn [negb].
  destruct (translate_items fuel s keyName (keyName +:+ "Translated") l h)
    as [h1| |] eqn:E; cbn [bind]; try discriminate.
  intros [= _ <-]. apply (translate_items_column _ _ _ _ _ _ _ E).
Qed.

(** C2.  The list holds one record [{position: "Accountant"}] and
    collation is supported.  When [sort] by "position" and [search] for
    "Acc" in "position" return, the record has the field
    "positionTranslated": the search for the name of the column among the
    elements of the list finds nothing, and nothing is removed. *)
Theorem sort_and_search_leave_translated_column :
  let h : gmap nat obj := {[ 0 := [("position", JStr "Accountant")] ]} in
  let h' : gmap nat obj :=
    {[ 0 := [("position", JStr "Accountant");
             ("positionTranslated", JStr "Accountant")] ]} in
  sort 1 (example_env true) new_service h (Some [0]) (Some "position")
    None None None = Ok (Some [0], h') /\
  search 1 (example_env true) new_service h "Acc" (Some [0])
    (Some ["position"]) None = Ok (Some [0], h') /\
  (forall l translated, remove_column l translated = l).
Proof.
  intros h h'. split; [|split].
  - vm_compute. reflexivity.
  - vm_compute. reflexivity.
  - apply remove_column_same.
Qed.

(** * Further properties of the service *)

(** ** Requests and answers *)

Lemma requests_trace (f : Provider -> string) ps s :
  http_get (fold_left (fun acc provider => request (f provider) acc) ps s) =
  http_get s ++ map f ps.
Proof.
  revert s. induction ps as [|p ps IH]; intros s; simpl.
  - rewrite app_nil_r. reflexivity.
  - rewrite IH. simpl. rewrite <- app_assoc. reflexivity.
Qed.

(** X1.  [getTranslation] sends one request to each provider, in the
    order of registration, and sets the counter to their number.  The
    address is the prefix followed by the language, and for a provider
    that is not a Web API by a point and the data format, which is "json"
    when [addProvider] was not given one. *)
Theorem getTranslation_requests_each_provider language s :
  http_get (getTranslation language s) =
    http_get s ++ map (fun p => provider_url p language) (providers s) /\
  counter (getTranslation language s) = Z.of_nat (length (providers s)) /\
  (forall prefix,
     http_get
       (getTranslation language (addProvider prefix None None new_service)) =
     [prefix +:+ language +:+ ".json"]) /\
  (forall prefix format,
     http_get
       (getTranslation language
          (addProvider prefix format (Some true) new_service)) =
     [prefix +:+ language]).
Proof.
  split; [|split; [|split]].
  - unfold getTranslation. rewrite requests_trace. reflexivity.
  - apply getTranslation_state.
  - intros prefix. unfold getTranslation. rewrite requests_trace. reflexivity.
  - intros prefix format. unfold getTranslation. rewrite requests_trace.
    reflexivity.
Qed.

(** An answer with data that finds the counter at one or below completes
    the request it belongs to. *)
Lemma deliver_success_completes language res s :
  (counter s <= 1)%Z ->
  let s' := deliver language (Success res) s in
  serviceState s' = isReady /\
  languageCode s' = language /\
  translationChanged s' = translationChanged s ++ [language] /\
  counter s' = (counter s - 1)%Z.
Proof.
  intros Hc. simpl. unfold on_complete. simpl.
  replace (counter s - 1 <=? 0)%Z with true
    by (symmetry; apply Z.leb_le; lia).
  simpl. repeat split.
Qed.

Lemma deliver_all_completes language rs s :
  rs <> [] ->
  forallb is_success rs = true ->
  counter s = Z.of_nat (length rs) ->
  let s' := deliver_all language rs s in
  serviceState s' = isReady /\
  languageCode s' = language /\
  translationChanged s' = translationChanged s ++ [language] /\
  counter s' = 0%Z.
Proof.
  intros Hne Hall Hc.
  destruct (exists_last Hne) as (rs0 & r & ->).
  rewrite forallb_app in Hall. apply andb_prop in Hall.
  destruct Hall as [Hall0 Hr]. simpl in Hr. rewrite andb_true_r in Hr.
  rewrite length_app in Hc. simpl in Hc.
  destruct (deliver_all_pending language rs0 s) as (_ & H2 & _ & H4).
  { rewrite (successes_all rs0 Hall0). lia. }
  rewrite (successes_all rs0 Hall0) in H4.
  destruct r as [res|e]; [|discriminate].
  rewrite deliver_all_app.
  change (deliver_all language [Success res] (deliver_all language rs0 s))
    with (deliver language (Success res) (deliver_all language rs0 s)).
  destruct (deliver_success_completes language res (deliver_all language rs0 s))
    as (G1 & G2 & G3 & G4); [lia|].
  cbv zeta. rewrite G1, G2, G3, G4, H2, H4. repeat split. lia.
Qed.

(** X2.  The answers carry no mark of their request.  When a request for
    [B] follows a request for [A] before the answers to [A] have come,
    these answers count for the request for [B]: after all of them the
    service is ready with the language code [A], has sent the event for
    [A], and holds no data for [B].  The first answer for [B] with data
    then completes once more, with the event for [B]. *)
Theorem stale_answers_complete_newer_request A B rs s :
  providers s <> [] ->
  length rs = length (providers s) ->
  forallb is_success rs = true ->
  let s' := deliver_all A rs (getTranslation B (getTranslation A s)) in
  serviceState s' = isReady /\
  languageCode s' = A /\
  translationChanged s' = translationChanged s ++ [A] /\
  (A <> B -> translationData s' !! B = None) /\
  (forall res,
     let s'' := deliver B (Success res) s' in
     serviceState s'' = isReady /\ languageCode s'' = B /\
     translationChanged s'' = translationChanged s ++ [A; B]).
Proof.
  intros Hp Hlen Hall s'.
  destruct (getTranslation_state A s) as (_ & _ & _ & He & _).
  destruct (getTranslation_state B (getTranslation A s))
    as (_ & Hc & Ht & He' & _).
  rewrite getTranslation_providers in Hc.
  assert (Hne : rs <> []).
  { intros ->. simpl in Hlen. destruct (providers s); [congruence|discriminate]. }
  destruct (deliver_all_completes A rs (getTranslation B (getTranslation A s)))
    as (G1 & G2 & G3 & G4); [exact Hne | exact Hall | rewrite Hc, Hlen; reflexivity|].
  fold s' in G1, G2, G3, G4.
  split; [exact G1|]. split; [exact G2|].
  split; [rewrite G3, He', He; reflexivity|]. split.
  - intros Hab. unfold s'. rewrite deliver_all_lookup_ne by congruence.
    rewrite Ht. apply lookup_empty.
  - intros res.
    destruct (deliver_success_completes B res s') as (F1 & F2 & F3 & _);
      [rewrite G4; lia|].
    cbv zeta. rewrite F1, F2, F3, G3, He', He, <- app_assoc. repeat split.
Qed.

Lemma stale_answers_complete_newer_request_witness :
  let s := addProvider "./i18n/locale-" None None new_service in
  let s' := deliver_all "en" [Success [("hello", JStr "Hello")]]
              (getTranslation "it" (getTranslation "en" s)) in
  languageCode s' = "en" /\ translationChanged s' = [] ++ ["en"].
Proof.
  intros s s'.
  destruct (stale_answers_complete_newer_request "en" "it"
              [Success [("hello", JStr "Hello")]] s)
    as (_ & H2 & H3 & _); [discriminate | reflexivity | reflexivity|].
  split; [exact H2 | exact H3].
Defined.

(** ** Invariants of the state *)

Lemma on_complete_cases language s :
  on_complete language s = set_counter (counter s - 1)%Z s \/
  on_complete language s =
    translationComplete language (set_counter (counter s - 1)%Z s).
Proof.
  unfold on_complete. simpl. destruct (counter s - 1 <=? 0)%Z; auto.
Qed.

Lemma updateTranslation_cases env language s :
  updateTranslation env language s = s \/
  (exists l, l <> "" /\ loadingMode s = Direct /\
             updateTranslation env language s = translationComplete l s) \/
  (exists l, l <> "" /\ loadingMode s = Async /\
             updateTranslation env language s = getTranslation l s).
Proof.
  unfold updateTranslation.
  match goal with |- context [String.eqb ?l ""] => set (lang := l) end.
  destruct (String.eqb_spec lang ""); simpl; [left; reflexivity|].
  destruct (String.eqb lang (languageCode s)); simpl; [left; reflexivity|].
  right. destruct (loadingMode s); [left | right]; exists lang; auto.
Qed.

Lemma translationComplete_code language s :
  code_is_last_event (translationComplete language s).
Proof.
  unfold code_is_last_event. simpl. rewrite last_snoc. reflexivity.
Qed.

Lemma step_code_is_last_event env op s :
  code_is_last_event s -> code_is_last_event (step env op s).
Proof.
  intros H. destruct op; simpl; try exact H.
  - unfold translationProvider, addProvider. case_match; exact H.
  - unfold addProvider. case_match; exact H.
  - destruct (updateTranslation_cases env language s)
      as [-> | [(l & _ & _ & ->) | (l & _ & _ & ->)]].
    + exact H.
    + apply translationComplete_code.
    + destruct (getTranslation_state l s) as (_ & _ & _ & He & Hl & _).
      unfold code_is_last_event. rewrite He, Hl. exact H.
  - destruct r as [res|e]; simpl; [|exact H].
    destruct (on_complete_cases language (on_next language res s)) as [-> | ->].
    + exact H.
    + apply translationComplete_code.
Qed.

(** X3.  On every service that calls can produce from a new one, the
    language code is the language of the last event that
    [translationChanged] has sent, and it is empty as long as no event has
    been sent; a service that is still waiting has sent none. *)
Theorem language_code_is_last_event s :
  reachable s ->
  languageCode s = default "" (last (translationChanged s)) /\
  (serviceState s = isWaiting -> translationChanged s = []).
Proof.
  intros Hs. split.
  - induction Hs as [|env op s Hs IH]; [reflexivity|].
    apply step_code_is_last_event. exact IH.
  - induction Hs as [|env op s Hs IH]; [reflexivity|].
    destruct op; simpl; try exact IH.
    + unfold translationProvider, addProvider. case_match; exact IH.
    + unfold addProvider. case_match; exact IH.
    + destruct (updateTranslation_cases env language s)
        as [-> | [(l & _ & _ & ->) | (l & _ & _ & ->)]].
      * exact IH.
      * discriminate.
      * destruct (getTranslation_state l s) as (Hst & _).
        rewrite Hst. discriminate.
    + destruct r as [res|e]; simpl; [|exact IH].
      destruct (on_complete_cases language (on_next language res s))
        as [-> | ->]; [exact IH | discriminate].
Qed.

Lemma language_code_is_last_event_witness :
  let s := step (example_env true) (op_updateTranslation (Some "it"))
             (step (example_env true) (op_updateTranslation (Some "en"))
                new_service) in
  languageCode s = "it" /\ translationChanged s = ["en"; "it"].
Proof.
  intros s.
  assert (Hs : reachable s) by (do 2 apply reachable_step; apply reachable_new).
  destruct (language_code_is_last_event s Hs) as (H & _).
  split; [rewrite H|]; reflexivity.
Defined.

(** X4.  A service without providers, which is in the mode [Direct],
    has sent no request and is not loading: on every service that calls
    can produce from a new one, requests and the state of loading occur
    only in the mode [Async]. *)
Theorem direct_mode_sends_no_request s :
  reachable s ->
  loadingMode s = Direct ->
  http_get s = [] /\ serviceState s <> isLoading.
Proof.
  induction 1 as [|env op s Hs IH]; [split; [reflexivity | discriminate]|].
  intros Hd. rewrite step_loadingMode in Hd.
  assert (Hmode : loadingMode s = Direct /\ adds_provider op = false).
  { destruct (adds_provider op) eqn:Ea; simpl in Hd; [|auto].
    destruct (Nat.eqb (length (providers s)) 0) eqn:E; [discriminate|].
    exfalso. apply Nat.eqb_neq in E.
    assert (Ha : loadingMode s = Async).
    { apply (reachable_mode s Hs). intros Hp. rewrite Hp in E. apply E.
      reflexivity. }
    congruence. }
  destruct Hmode as [Hm Ha]. destruct (IH Hm) as [Hg Hl].
  destruct op; try discriminate Ha; simpl; try (split; assumption).
  - destruct (updateTranslation_cases env language s)
      as [-> | [(l & _ & _ & ->) | (l & _ & Hasync & _)]].
    + split; assumption.
    + split; [exact Hg | discriminate].
    + congruence.
  - destruct r as [res|e]; simpl; [|split; assumption].
    destruct (on_complete_cases language (on_next language res s))
      as [-> | ->]; simpl; split; solve [assumption | discriminate].
Qed.

Lemma direct_mode_sends_no_request_witness :
  let s := step (example_env true) (op_updateTranslation (Some "en"))
             (step (example_env true)
                (op_addTranslation "en" [("hello", JStr "Hello")])
                new_service) in
  http_get s = [] /\ serviceState s <> isLoading.
Proof.
  intros s.
  apply (direct_mode_sends_no_request s).
  - do 2 apply reachable_step. apply reachable_new.
  - reflexivity.
Defined.

(** ** Repeated requests *)

Lemma updateTranslation_skip env language s :
  language = "" \/ language = languageCode s ->
  updateTranslation env (Some language) s = s.
Proof.
  intros H. unfold updateTranslation. cbn [default from_option id].
  destruct (String.eqb_spec language ""); [reflexivity|].
  destruct (String.eqb_spec language (languageCode s)); [reflexivity|].
  destruct H; contradiction.
Qed.

Lemma updateTranslation_switch env language s :
  language <> "" -> language <> languageCode s ->
  updateTranslation env (Some language) s =
  match loadingMode s with
  | Async => getTranslation language s
  | Direct => translationComplete language s
  end.
Proof.
  intros H1 H2. unfold updateTranslation. cbn [default from_option id].
  destruct (String.eqb_spec language ""); [contradiction|].
  destruct (String.eqb_spec language (languageCode s)); [contradiction|].
  reflexivity.
Qed.

(** X5.  In the mode [Direct] a request for a language makes the service
    ready for it at once and keeps the translation data of every
    language; the same request made again changes nothing, and so does a
    request for the empty language. *)
Theorem direct_update_is_idempotent env language s :
  loadingMode s = Direct ->
  let s' := updateTranslation env (Some language) s in
  updateTranslation env (Some language) s' = s' /\
  translationData s' = translationData s /\
  updateTranslation env (Some "") s = s /\
  (language <> "" -> language <> languageCode s ->
   serviceState s' = isReady /\ languageCode s' = language /\
   translationChanged s' = translationChanged s ++ [language]).
Proof.
  intros Hd. cbv zeta.
  assert (He : updateTranslation env (Some "") s = s)
    by (apply updateTranslation_skip; left; reflexivity).
  destruct (String.eqb_spec language "") as [E1|E1];
    [|destruct (String.eqb_spec language (languageCode s)) as [E2|E2]].
  - rewrite (updateTranslation_skip env language s) by (left; exact E1).
    rewrite (updateTranslation_skip env language s) by (left; exact E1).
    split; [reflexivity|]. split; [reflexivity|]. split; [exact He|].
    intros H. contradiction.
  - rewrite (updateTranslation_skip env language s) by (right; exact E2).
    rewrite (updateTranslation_skip env language s) by (right; exact E2).
    split; [reflexivity|]. split; [reflexivity|]. split; [exact He|].
    intros _ H. contradiction.
  - rewrite (updateTranslation_switch env language s E1 E2), Hd.
    split; [apply updateTranslation_skip; right; reflexivity|].
    split; [reflexivity|]. split; [exact He|].
    intros _ _. repeat split.
Qed.

Lemma direct_update_is_idempotent_witness :
  let s := addTranslation "en" [("hello", JStr "Hello")] new_service in
  let s' := updateTranslation (example_env true) (Some "en") s in
  updateTranslation (example_env true) (Some "en") s' = s'.
Proof.
  intros s s'.
  apply (direct_update_is_idempotent (example_env true) "en" s).
  reflexivity.
Defined.

(** X6.  In the mode [Async] a request made again while the answers are
    outstanding is not recognized as the same: the requests are sent a
    second time, the counter starts again at the number of providers, and
    the service is still loading with its former language code. *)
Theorem async_update_repeats_requests env language s :
  loadingMode s = Async ->
  language <> "" ->
  language <> languageCode s ->
  let urls := map (fun p => provider_url p language) (providers s) in
  let s' := updateTranslation env (Some language)
              (updateTranslation env (Some language) s) in
  http_get s' = http_get s ++ urls ++ urls /\
  counter s' = Z.of_nat (length (providers s)) /\
  serviceState s' = isLoading /\
  languageCode s' = languageCode s.
Proof.
  intros Ha Hne Hcode.
  assert (Hu : forall s0, loadingMode s0 = Async ->
            languageCode s0 = languageCode s ->
            updateTranslation env (Some language) s0 =
            getTranslation language s0).
  { intros s0 Hm Hl. unfold updateTranslation. cbn [default from_option id]. rewrite Hm, Hl.
    destruct (String.eqb_spec language ""); [contradiction|].
    destruct (String.eqb_spec language (languageCode s)); [contradiction|].
    reflexivity. }
  cbv zeta. rewrite (Hu s Ha eq_refl).
  destruct (getTranslation_state language s) as (_ & _ & _ & _ & Hl & _).
  rewrite (Hu (getTranslation language s));
    [|rewrite getTranslation_loadingMode; exact Ha | exact Hl].
  destruct (getTranslation_requests_each_provider language s) as (Hg & _).
  destruct (getTranslation_requests_each_provider language
              (getTranslation language s)) as (Hg' & _).
  destruct (getTranslation_state language (getTranslation language s))
    as (Hst & Hc & _ & _ & Hl' & _).
  rewrite getTranslation_providers in Hg', Hc.
  rewrite Hg', Hg, Hc, Hst, Hl', Hl, <- app_assoc. repeat split.
Qed.

Lemma async_update_repeats_requests_witness :
  let s := addProvider "./i18n/locale-" None None new_service in
  http_get (updateTranslation (example_env true) (Some "en")
              (updateTranslation (example_env true) (Some "en") s)) =
  [] ++ ["./i18n/locale-en.json"] ++ ["./i18n/locale-en.json"].
Proof.
  intros s.
  apply (async_update_repeats_requests (example_env true) "en" s);
    [reflexivity | discriminate | discriminate].
Defined.

(** ** Translation *)

Lemma prop_get_has o k v : prop_get o k = v -> defined v = true -> prop_has o k = true.
Proof.
  intros Hg Hd. destruct (prop_has o k) eqn:E; [reflexivity|].
  rewrite (prop_has_false o k E) in Hg. subst v. discriminate.
Qed.

Lemma find_value_plain s t (key : string) language :
  translationData s !! language = Some t ->
  composedKey s = false \/
  (composedKey s = true /\ keySeparator s = Some "." /\
   free_of "." key = true) ->
  is_mapping (prop_get t key) = false ->
  find_value s (JStr key) language = Ok (JStr key, prop_get t key).
Proof.
  intros Ht Hmode Hm. destruct Hmode as [Hc | (Hc & Hsep & Hk)].
  - unfold find_value. rewrite Ht, Hc. reflexivity.
  - rewrite (find_value_composed s t) by assumption.
    rewrite Hsep, split_free by exact Hk. cbn [descend].
    rewrite descend_step_other by exact Hm. reflexivity.
Qed.

(** X7.  What [addTranslation] stores, [translate] finds: a key of the
    data whose value is a string that is not empty translates to that
    value in the language of the data, whatever the service held before.
    The key is taken whole when composed keys are off, and is free of the
    separator when they are on. *)
Theorem translate_finds_added_translation fuel s language data key v :
  prop_get data key = JStr v ->
  v <> "" ->
  composedKey s = false \/
  (composedKey s = true /\ keySeparator s = Some "." /\
   free_of "." key = true) ->
  translate (S fuel) (addTranslation language data s) (JStr key) None language
  = Ok (JStr v).
Proof.
  intros Hg Hv Hmode.
  assert (Hentry : exists t,
            translationData (addTranslation language data s) !! language
            = Some t /\ prop_get t key = JStr v).
  { unfold addTranslation. rewrite addData_lookup. unfold merge_entry.
    eexists. split; [reflexivity|].
    destruct (translationData s !! language) as [old|]; [|exact Hg].
    rewrite extend_get, (prop_get_has data key (JStr v) Hg eq_refl).
    exact Hg. }
  destruct Hentry as (t & Ht & Hval).
  cbn [translate].
  rewrite (find_value_plain _ t key language Ht).
  - rewrite Hval. cbn [bind]. unfold is_missing. cbn [eq_null eq_empty orb].
    destruct (String.eqb_spec v ""); [contradiction | reflexivity].
  - exact Hmode.
  - rewrite Hval. reflexivity.
Qed.

Lemma translate_finds_added_translation_witness :
  translate 1 (addTranslation "en" [("hello", JStr "Hello")] new_service)
    (JStr "hello") None "en" = Ok (JStr "Hello").
Proof.
  apply (translate_finds_added_translation 0 new_service "en"
           [("hello", JStr "Hello")] "hello" "Hello").
  - reflexivity.
  - discriminate.
  - right. repeat split.
Defined.

(** X8.  For a language without translation data [translate] gives back
    the key it was given, whole and whatever it is, when neither a key nor
    a value for missing keys is set; with a value for missing keys set and
    no key, it gives that value. *)
Theorem translate_without_data fuel s key args lang :
  translationData s !! lang = None ->
  truthy (missingKey s) = false ->
  translate (S fuel) s key args lang =
  if truthy (missingValue s)
  then Ok (JStr (default "" (missingValue s)))
  else Ok key.
Proof.
  intros Hd Hk.
  rewrite (translate_missing fuel s key args lang key JUndefined).
  - rewrite Hk. reflexivity.
  - apply find_value_no_data. exact Hd.
  - reflexivity.
Qed.

Lemma translate_without_data_witness :
  translate 1 new_service (JStr "app.title") None "en" = Ok (JStr "app.title").
Proof.
  apply (translate_without_data 0 new_service (JStr "app.title") None "en");
    reflexivity.
Defined.

(** X9.  With a key for missing keys that has a translation, every
    string key that misses translates as the key for missing keys does:
    the answer comes after one recursive call, and it is the value of the
    key for missing keys when no arguments are given. *)
Theorem missing_key_falls_back fuel s (key : string) args lang mk k' v
  key' value :
  missingKey s = Some mk -> mk <> "" ->
  find_value s (JStr mk) lang = Ok (k', JStr v) -> v <> "" ->
  find_value s (JStr key) lang = Ok (key', value) ->
  is_missing value = true ->
  translate (S (S fuel)) s (JStr key) args lang =
    translate (S fuel) s (JStr mk) args lang /\
  translate (S (S fuel)) s (JStr key) None lang = Ok (JStr v).
Proof.
  intros Hmk Hne Hf Hv Hk Hmiss.
  assert (Ht : truthy (missingKey s) = true).
  { rewrite Hmk. simpl. destruct (String.eqb_spec mk ""); [contradiction|].
    reflexivity. }
  assert (Hstep : forall a,
            translate (S (S fuel)) s (JStr key) a lang =
            translate (S fuel) s (JStr mk) a lang).
  { intros a.
    rewrite (translate_missing (S fuel) s (JStr key) a lang key' value Hk Hmiss).
    rewrite Ht, Hmk. reflexivity. }
  split; [apply Hstep|].
  rewrite Hstep. cbn [translate]. rewrite Hf. cbn [bind].
  unfold is_missing. cbn [eq_null eq_empty orb].
  destruct (String.eqb_spec v ""); [contradiction | reflexivity].
Qed.

Lemma missing_key_falls_back_witness :
  translate 2
    (setMissingKey "missing"
       (addTranslation "en" [("missing", JStr "No translation")] new_service))
    (JStr "app.title") None "en" = Ok (JStr "No translation").
Proof.
  apply (missing_key_falls_back 0
           (setMissingKey "missing"
              (addTranslation "en" [("missing", JStr "No translation")]
                 new_service))
           "app.title" None "en" "missing" (JStr "missing") "No translation"
           (JStr "title") JUndefined); try reflexivity; discriminate.
Defined.

(** X10.  With translation data loaded and composed keys on, a key that
    is not a string makes [translate] throw a [TypeError], since only a
    string has [split]; [sort] therefore does not return when a record of
    the list has no value in the column and data is loaded for the
    language of the service. *)
Theorem translate_throws_on_missing_field fuel env s h l keyName item o
  order extension options :
  is_Some (translationData s !! languageCode s) ->
  composedKey s = true ->
  IntlSupport_Collator env (getCurrentLanguage env) = true ->
  In item l ->
  (forall x, In x l -> is_Some (h !! x)) ->
  h !! item = Some o ->
  prop_get o keyName = JUndefined ->
  (forall args,
     translate (S fuel) s JUndefined args (languageCode s) = Throw TypeError) /\
  returns (sort (S fuel) env s h (Some l) (Some keyName) order extension options)
    = false.
Proof.
  intros [t Ht] Hc Hs Hin Hall Ho Hu.
  assert (Hthrow : forall args,
            translate (S fuel) s JUndefined args (languageCode s)
            = Throw TypeError).
  { intros args. cbn [translate]. unfold find_value. rewrite Ht, Hc.
    reflexivity. }
  split; [exact Hthrow|].
  unfold sort. rewrite Hs. cbn [negb].
  assert (Hitems : forall l0 h0,
            In item l0 ->
            (forall x, In x l0 -> is_Some (h0 !! x)) ->
            (exists o0, h0 !! item = Some o0 /\ prop_get o0 keyName = JUndefined) ->
            returns (translate_items (S fuel) s keyName
                       (keyName +:+ "Translated") l0 h0) = false).
  { clear Hin Hall Ho. induction l0 as [|x l0 IH]; intros h0 Hin Hall Hitem;
      [destruct Hin|].
    cbn [translate_items].
    destruct (Hall x (or_introl eq_refl)) as [ox Hx]. rewrite Hx.
    destruct (decide (x = item)) as [->|Hne].
    - destruct Hitem as (o0 & Ho0 & Hu0). rewrite Ho0 in Hx.
      injection Hx as <-. rewrite Hu0, Hthrow. reflexivity.
    - destruct (translate (S fuel) s (prop_get ox keyName) None (languageCode s))
        as [value| |]; cbn [bind]; try reflexivity.
      apply IH.
      + destruct Hin as [Hin|Hin]; [contradiction | exact Hin].
      + intros y Hy. destruct (decide (y = x)) as [->|Hyx].
        * rewrite lookup_insert_eq. eauto.
        * rewrite lookup_insert_ne by congruence. apply Hall. right. exact Hy.
      + destruct Hitem as (o0 & Ho0 & Hu0). exists o0.
        rewrite lookup_insert_ne by congruence. auto. }
  specialize (Hitems l h Hin Hall (ex_intro _ o (conj Ho Hu))).
  destruct (translate_items (S fuel) s keyName (keyName +:+ "Translated") l h);
    [discriminate | reflexivity | reflexivity].
Qed.

Lemma translate_throws_on_missing_field_witness :
  let s := updateTranslation (example_env true) (Some "en")
             (addTranslation "en" [("hello", JStr "Hello")] new_service) in
  let h : gmap nat obj := {[ 0 := [("name", JStr "Tiger Nixon")] ]} in
  returns (sort 1 (example_env true) s h (Some [0]) (Some "position")
             None None None) = false.
Proof.
  intros s h.
  apply (translate_throws_on_missing_field 0 (example_env true) s h [0]
           "position" 0 [("name", JStr "Tiger Nixon")] None None None).
  - eexists. reflexivity.
  - reflexivity.
  - reflexivity.
  - left. reflexivity.
  - intros x [<-|[]]. eexists. reflexivity.
  - reflexivity.
  - reflexivity.
Defined.

(** ** Merging *)

Lemma prop_set_keys_nodup o k v :
  NoDup (map fst o) -> NoDup (map fst (prop_set o k v)).
Proof.
  induction o as [|[k0 v0] o IH]; simpl; intros Hn.
  - apply NoDup_cons. split; [apply not_elem_of_nil | apply NoDup_nil_2].
  - apply NoDup_cons in Hn. destruct Hn as [Hk0 Hn].
    destruct (String.eqb_spec k k0) as [->|Hne]; simpl.
    + apply NoDup_cons. split; assumption.
    + apply NoDup_cons. split; [|apply IH; exact Hn].
      intros Hin. apply Hk0.
      apply list_elem_of_fmap in Hin. destruct Hin as ([k1 v1] & Hk1 & Hin).
      simpl in Hk1. subst k1.
      assert (Hh : prop_has (prop_set o k v) k0 = true).
      { clear -Hin. induction (prop_set o k v) as [|[a b] l IHl];
          [inversion Hin|].
        simpl. apply elem_of_cons in Hin. destruct Hin as [[= <- <-]|Hin].
        - rewrite String.eqb_refl. reflexivity.
        - rewrite (IHl Hin). apply orb_true_r. }
      rewrite prop_has_set in Hh.
      destruct (String.eqb_spec k0 k) as [->|_]; [contradiction|].
      simpl in Hh. rewrite prop_has_keys in Hh.
      apply existsb_exists in Hh. destruct Hh as (x & Hx & Hxe).
      apply String.eqb_eq in Hxe. subst x. apply list_elem_of_In. exact Hx.
Qed.

Lemma copy_fields_keys_nodup newObj o :
  NoDup (map fst newObj) -> NoDup (map fst (copy_fields newObj o)).
Proof.
  unfold copy_fields. generalize (map fst o) as ks. intros ks. revert newObj.
  induction ks as [|k ks IH]; intros newObj Hn; simpl; [exact Hn|].
  apply IH. apply prop_set_keys_nodup. exact Hn.
Qed.

Lemma copy_fields_has newObj o k :
  prop_has (copy_fields newObj o) k = prop_has o k || prop_has newObj k.
Proof.
  unfold copy_fields. rewrite (prop_has_keys o).
  generalize (map fst o) as ks. intros ks. revert newObj.
  induction ks as [|k0 ks IH]; intros newObj; simpl; [reflexivity|].
  rewrite IH, prop_has_set.
  destruct (String.eqb k k0), (existsb (String.eqb k) ks), (prop_has newObj k);
    reflexivity.
Qed.

Lemma extend_snoc args b :
  extend (args ++ [b]) = copy_fields (extend args) b.
Proof. unfold extend. rewrite fold_left_app. reflexivity. Qed.

(** X11.  [extend] of any number of objects gives an object without a
    repeated field, whose fields are the fields of the arguments; the
    value of a field is the one of the last argument that has it. *)
Theorem extend_last_argument_wins args :
  NoDup (map fst (extend args)) /\
  (forall k, prop_has (extend args) k = existsb (fun o => prop_has o k) args) /\
  (forall b k,
     prop_get (extend (args ++ [b])) k =
     if prop_has b k then prop_get b k else prop_get (extend args) k).
Proof.
  split; [|split].
  - induction args as [|b args IH] using rev_ind; [apply NoDup_nil_2|].
    rewrite extend_snoc. apply copy_fields_keys_nodup. exact IH.
  - intros k. induction args as [|b args IH] using rev_ind; [reflexivity|].
    rewrite extend_snoc, copy_fields_has, IH, existsb_app. simpl.
    rewrite orb_false_r. apply orb_comm.
  - intros b k. rewrite extend_snoc. apply copy_fields_get.
Qed.

(** X12.  Data added for two different languages does not interact: the
    two calls of [addData] give the same service in either order. *)
Theorem addData_languages_commute data1 language1 data2 language2 s :
  language1 <> language2 ->
  addData data1 language1 (addData data2 language2 s) =
  addData data2 language2 (addData data1 language1 s).
Proof.
  intros Hne. unfold addData, set_translationData. simpl.
  rewrite !lookup_insert_ne by congruence.
  f_equal. apply insert_insert_ne. congruence.
Qed.

Lemma addData_languages_commute_witness :
  addData [("hello", JStr "Hello")] "en"
    (addData [("hello", JStr "Ciao")] "it" new_service) =
  addData [("hello", JStr "Ciao")] "it"
    (addData [("hello", JStr "Hello")] "en" new_service).
Proof.
  apply (addData_languages_commute [("hello", JStr "Hello")] "en"
           [("hello", JStr "Ciao")] "it" new_service).
  discriminate.
Defined.

(** ** Values without parameters *)

Lemma substr_drop s n :
  substr s 0 n +:+ Template.string_drop n s = s.
Proof.
  unfold substr. revert s. induction n as [|n IH]; intros s.
  - destruct s; reflexivity.
  - destruct s as [|c s]; [reflexivity|].
    cbn [String.substring Template.string_drop].
    rewrite append_cons, IH. reflexivity.
Qed.

Lemma string_drop_cons n c s :
  Template.string_drop (S n) (String c s) = Template.string_drop n s.
Proof. reflexivity. Qed.

Lemma replace_from_kept f :
  forall s k,
    (forall text name, In name (Template.names_from k s) -> f text name = text) ->
    Template.replace_from f k s = Template.string_drop k s.
Proof.
  induction s as [|c s IH]; intros k Hf.
  - destruct k; reflexivity.
  - destruct k as [|k];
      cbn [Template.replace_from Template.string_drop Template.names_from]
        in Hf |- *.
    + destruct (Template.match_here (String c s)) as [[name len]|] eqn:E.
      * pose proof (TemplateProperties.match_here_positive _ _ _ E) as Hpos.
        destruct len as [|len]; [lia|]. cbn [Nat.pred] in Hf |- *.
        rewrite Hf by (left; reflexivity).
        rewrite IH by (intros text n Hn; apply Hf; right; exact Hn).
        rewrite <- (string_drop_cons len c s). apply substr_drop.
      * rewrite IH by exact Hf. destruct s; reflexivity.
    + apply IH. exact Hf.
Qed.

Lemma match_here_free s :
  free_of "{" s = true -> Template.match_here s = None.
Proof.
  destruct s as [|c0 [|c1 s]]; try reflexivity. simpl free_of.
  intros H. apply andb_prop in H. destruct H as [H0 _].
  apply negb_true_iff in H0. cbn [Template.match_here]. rewrite H0.
  reflexivity.
Qed.

Lemma replace_free f s :
  free_of "{" s = true -> Template.replace f s = s.
Proof.
  unfold Template.replace. induction s as [|c s IH]; [reflexivity|].
  intros H. cbn [Template.replace_from].
  rewrite (match_here_free _ H).
  simpl in H. apply andb_prop in H. destruct H as [_ H].
  rewrite (IH H). reflexivity.
Qed.

(** X13.  [translate] with arguments returns the value as it is when the
    value holds no opening brace, whatever the arguments, and also when
    the arguments define none of the names that the parameters of the
    value carry. *)
Theorem translate_keeps_value_without_parameters fuel s key lang key' v args :
  find_value s key lang = Ok (key', JStr v) ->
  v <> "" ->
  free_of "{" v = true \/
  (forall name, In name (Template.names v) ->
                defined (prop_get args name) = false) ->
  translate (S fuel) s key (Some args) lang = Ok (JStr v).
Proof.
  intros Hf Hv Hcase. cbn [translate]. rewrite Hf. cbn [bind].
  unfold is_missing. cbn [eq_null eq_empty orb].
  destruct (String.eqb_spec v ""); [contradiction|].
  cbn [value_replace]. f_equal. f_equal.
  destruct Hcase as [Hfree | Hundef].
  - apply replace_free. exact Hfree.
  - unfold Template.replace. rewrite replace_from_kept.
    + destruct v; reflexivity.
    + intros text name Hn. unfold parameter.
      rewrite (Hundef name Hn). reflexivity.
Qed.

Lemma translate_keeps_value_without_parameters_witness :
  translate 1
    (addTranslation "en" [("greeting", JStr "Hi {{name}}, {{ age }}")]
       new_service)
    (JStr "greeting") (Some [("city", JStr "Rome")]) "en"
  = Ok (JStr "Hi {{name}}, {{ age }}").
Proof.
  apply (translate_keeps_value_without_parameters 0 _ (JStr "greeting") "en"
           (JStr "greeting") "Hi {{name}}, {{ age }}" [("city", JStr "Rome")]).
  - reflexivity.
  - discriminate.
  - right. intros name [<-|[<-|[]]]; reflexivity.
Defined.

(** ** Sorting *)

Lemma translated_differs keyName : keyName +:+ "Translated" <> keyName.
Proof.
  intros H. apply (f_equal String.length) in H.
  rewrite length_append in H. simpl in H. lia.
Qed.

(** What the loop over the list does to the objects: [h] is the heap at
    the call and [h'] the heap at the end. *)
Lemma translate_items_frame fuel s keyName translated l :
  translated <> keyName ->
  forall h0 h h' : gmap nat obj,
    (forall a o0, h0 !! a = Some o0 ->
       exists o, h !! a = Some o /\
         (forall name, name <> translated -> prop_get o name = prop_get o0 name)) ->
    (forall a, h !! a = None -> h0 !! a = None) ->
    translate_items fuel s keyName translated l h = Ok h' ->
    (forall a o0, h0 !! a = Some o0 ->
       exists o', h' !! a = Some o' /\
         (forall name, name <> translated ->
            prop_get o' name = prop_get o0 name) /\
         (In a l ->
            translate fuel s (prop_get o0 keyName) None (languageCode s)
            = Ok (prop_get o' translated))) /\
    (forall a, ~ In a l -> h' !! a = h !! a).
Proof.
  intros Hdiff. induction l as [|x l IH]; intros h0 h h' Hinv Hdom;
    cbn [translate_items].
  - intros [= <-]. split; [|reflexivity].
    intros a o0 Ha. destruct (Hinv a o0 Ha) as (o & Ho & Hsame).
    exists o. split; [exact Ho|]. split; [exact Hsame | intros []].
  - destruct (h !! x) as [ox|] eqn:Ex; [|discriminate].
    destruct (translate fuel s (prop_get ox keyName) None (languageCode s))
      as [value| |] eqn:Et; cbn [bind]; try discriminate.
    intros Hrest.
    assert (Hinv' : forall a o0, h0 !! a = Some o0 ->
              exists o, <[x:=prop_set ox translated value]> h !! a = Some o /\
                (forall name, name <> translated ->
                   prop_get o name = prop_get o0 name)).
    { intros a o0 Ha. destruct (Hinv a o0 Ha) as (o & Ho & Hsame).
      destruct (decide (a = x)) as [->|Hne].
      - rewrite lookup_insert_eq. eexists. split; [reflexivity|].
        intros name Hn. rewrite prop_get_set.
        destruct (String.eqb_spec name translated); [contradiction|].
        rewrite Ex in Ho. injection Ho as <-. apply Hsame. exact Hn.
      - rewrite lookup_insert_ne by congruence. eauto. }
    assert (Hdom' : forall a,
              <[x:=prop_set ox translated value]> h !! a = None ->
              h0 !! a = None).
    { intros a Ha. destruct (decide (a = x)) as [->|Hne].
      - rewrite lookup_insert_eq in Ha. discriminate.
      - rewrite lookup_insert_ne in Ha by congruence. apply Hdom. exact Ha. }
    destruct (IH h0 _ h' Hinv' Hdom' Hrest) as [Hobj Hout].
    split.
    + intros a o0 Ha. destruct (Hobj a o0 Ha) as (o' & Ho' & Hsame & Hval).
      exists o'. split; [exact Ho'|]. split; [exact Hsame|].
      intros [<-|Hin]; [|apply Hval; exact Hin].
      destruct (Hinv x o0 Ha) as (o & Ho & Hs0).
      rewrite Ex in Ho. injection Ho as <-.
      rewrite <- (Hs0 keyName) by congruence. rewrite Et. f_equal.
      destruct (in_dec Nat.eq_dec x l) as [Hin|Hnin];
        [specialize (Hval Hin);
         rewrite <- (Hs0 keyName) in Hval by congruence; congruence|].
      rewrite (Hout x Hnin) in Ho'. rewrite lookup_insert_eq in Ho'.
      injection Ho' as <-. rewrite prop_get_set, String.eqb_refl. reflexivity.
    + intros a Ha. rewrite Hout by (intros Hin; apply Ha; right; exact Hin).
      apply lookup_insert_ne. intros ->. apply Ha. left. reflexivity.
Qed.

(** X14.  When [sort] returns, every object of the list has kept the
    values of all its fields but the column of translated values, which
    holds the translation of the value of the column sorted by; the
    objects outside the list are as they were. *)
Theorem sort_writes_only_translated_column fuel env s h l keyName order
  extension options l' h' :
  IntlSupport_Collator env (getCurrentLanguage env) = true ->
  sort fuel env s h (Some l) (Some keyName) order extension options
    = Ok (l', h') ->
  (forall a o, h !! a = Some o ->
     exists o', h' !! a = Some o' /\
       (forall name, name <> keyName +:+ "Translated" ->
          prop_get o' name = prop_get o name) /\
       (In a l ->
          translate fuel s (prop_get o keyName) None (languageCode s)
          = Ok (prop_get o' (keyName +:+ "Translated")))) /\
  (forall a, ~ In a l -> h' !! a = h !! a).
Proof.
  intros Hs. unfold sort. rewrite Hs. cbn [negb].
  destruct (translate_items fuel s keyName (keyName +:+ "Translated") l h)
    as [h1| |] eqn:E; cbn [bind]; try discriminate.
  intros [= _ <-].
  apply (translate_items_frame fuel s keyName (keyName +:+ "Translated") l
           (translated_differs keyName) h h h1); [|auto|exact E].
  intros a o0 Ha. exists o0. auto.
Qed.

Lemma sort_writes_only_translated_column_witness :
  let h : gmap nat obj :=
    {[ 0 := [("name", JStr "Tiger Nixon"); ("position", JStr "Accountant")] ]} in
  exists o',
    ({[ 0 := [("name", JStr "Tiger Nixon"); ("position", JStr "Accountant");
              ("positionTranslated", JStr "Accountant")] ]} : gmap nat obj)
      !! 0 = Some o' /\
    prop_get o' "name" = JStr "Tiger Nixon".
Proof.
  intros h.
  destruct (sort_writes_only_translated_column 1 (example_env true) new_service
              h [0] "position" None None None (Some [0])
              {[ 0 := [("name", JStr "Tiger Nixon");
                       ("position", JStr "Accountant");
                       ("positionTranslated", JStr "Accountant")] ]})
    as [Hobj _]; [reflexivity | vm_compute; reflexivity|].
  destruct (Hobj 0 [("name", JStr "Tiger Nixon"); ("position", JStr "Accountant")])
    as (o' & Ho' & Hsame & _); [reflexivity|].
  exists o'. split; [exact Ho'|].
  rewrite Hsame by discriminate. reflexivity.
Defined.

Lemma insert_by_perm cmp x l : Permutation (insert_by cmp x l) (x :: l).
Proof.
  induction l as [|y l IH]; simpl; [reflexivity|].
  destruct (cmp x y <? 0)%Z; [reflexivity|].
  rewrite IH. apply perm_swap.
Qed.

Lemma insertion_sort_perm cmp l : Permutation (insertion_sort cmp l) l.
Proof.
  induction l as [|x l IH]; simpl; [reflexivity|].
  unfold insertion_sort in *. simpl. rewrite insert_by_perm, IH. reflexivity.
Qed.

(** X15.  With an [Array.prototype.sort] that rearranges the array, the
    list that [sort] returns is a rearrangement of the list it was given;
    the order "desc" gives the reverse of the list that the default order
    gives, with the same objects, and any other order gives the same list
    as the default. *)
Theorem sort_rearranges_and_desc_reverses fuel env s h l keyName extension
  options la h' :
  IntlSupport_Collator env (getCurrentLanguage env) = true ->
  (forall cmp l0, Permutation (Array_sort env cmp l0) l0) ->
  sort fuel env s h (Some l) (Some keyName) None extension options
    = Ok (Some la, h') ->
  Permutation la l /\
  sort fuel env s h (Some l) (Some keyName) (Some "desc") extension options
    = Ok (Some (rev la), h') /\
  (forall order, order <> "desc" ->
     sort fuel env s h (Some l) (Some keyName) (Some order) extension options
     = Ok (Some la, h')).
Proof.
  intros Hs Hperm. unfold sort. rewrite Hs. cbn [negb].
  destruct (translate_items fuel s keyName (keyName +:+ "Translated") l h)
    as [h1| |]; cbn [bind]; try discriminate.
  rewrite remove_column_same. intros [= <- <-].
  split; [apply Hperm|]. split; [reflexivity|].
  intros order Ho. destruct (String.eqb_spec order "desc"); [contradiction|].
  reflexivity.
Qed.

Lemma sort_rearranges_and_desc_reverses_witness :
  let h : gmap nat obj :=
    {[ 0 := [("position", JStr "System Architect")];
       1 := [("position", JStr "Accountant")] ]} in
  let h' : gmap nat obj :=
    {[ 0 := [("position", JStr "System Architect");
             ("positionTranslated", JStr "System Architect")];
       1 := [("position", JStr "Accountant");
             ("positionTranslated", JStr "Accountant")] ]} in
  Permutation [1; 0] [0; 1] /\
  sort 1 (example_env true) new_service h (Some [0; 1]) (Some "position")
    (Some "desc") None None = Ok (Some (rev [1; 0]), h').
Proof.
  intros h h'.
  destruct (sort_rearranges_and_desc_reverses 1 (example_env true) new_service
              h [0; 1] "position" None None [1; 0] h')
    as (Hp & Hd & _).
  - reflexivity.
  - intros cmp l0. apply insertion_sort_perm.
  - vm_compute. reflexivity.
  - split; [exact Hp | exact Hd].
Defined.

(** ** Searching *)

Lemma remove_columns_same translated l :
  fold_left remove_column translated l = l.
Proof.
  induction translated as [|t translated IH]; simpl; [reflexivity|].
  rewrite remove_column_same. exact IH.
Qed.






Lemma next_matches_spec collator number h l translated s :
  match filter_matches collator number h l translated s with
  | Ok res => next_matches collator number h l translated s = mkRun res (Ok tt)
  | Throw e =>
      run_end (next_matches collator number h l translated s) = Throw e
  | OutOfFuel =>
      run_end (next_matches collator number h l translated s) = OutOfFuel
  end.
Proof.
  induction l as [|x l IH]; cbn [filter_matches next_matches]; [reflexivity|].
  destruct (found_in collator number h x translated s) as [found| |];
    cbn [bind];
    try reflexivity.
  destruct (filter_matches collator number h l translated s) as [matches| |];
    cbn [bind]; cbn [run_end]; try exact IH.
  rewrite IH. destruct found; reflexivity.
Qed.

(** X17.  [searchAsync], subscribed to where it is called, passes to the
    observer one by one the records of the list that [search] returns,
    in the same order, then completes, and leaves the objects and the
    list as [search] leaves them.  It returns [null] only for a list that
    is [null]. *)
Theorem searchAsync_passes_what_search_returns fuel env sv h s l keyNames
  options res h' :
  search fuel env sv h s (Some l) keyNames options = Ok (Some res, h') ->
  (exists obs,
     searchAsync env s (Some l) keyNames options = Some obs /\
     obs fuel env sv h = Ok (mkRun res (Ok tt), l, h')) /\
  searchAsync env s None keyNames options = None.
Proof.
  intros Hsearch. split; [|reflexivity].
  unfold search in Hsearch. unfold searchAsync.
  destruct keyNames as [keyNames|].
  - destruct (String.eqb s ""
              || negb (IntlSupport_Collator env (getCurrentLanguage env))).
    + injection Hsearch as <- <-. eexists. split; reflexivity.
    + eexists. split; [reflexivity|]. cbv beta.
      destruct (translate_columns fuel sv keyNames l h) as [h1| |];
        cbn [bind] in Hsearch |- *; try discriminate.
      match type of Hsearch with context [filter_matches ?c ?n h1 l ?ts s] =>
        pose proof (next_matches_spec c n h1 l ts s) as Hn;
        destruct (filter_matches c n h1 l ts s) as [matches| |] end;
        cbn [bind] in Hsearch; try discriminate.
      rewrite remove_columns_same in Hsearch. injection Hsearch as <- <-.
      cbv zeta. rewrite Hn. cbn [run_end]. rewrite remove_columns_same.
      reflexivity.
  - injection Hsearch as <- <-. eexists. split; reflexivity.
Qed.

Lemma searchAsync_passes_what_search_returns_witness :
  let h : gmap nat obj :=
    {[ 0 := [("position", JStr "System Architect")];
       1 := [("position", JStr "Accountant")] ]} in
  let h' : gmap nat obj :=
    {[ 0 := [("position", JStr "System Architect");
             ("positionTranslated", JStr "System Architect")];
       1 := [("position", JStr "Accountant");
             ("positionTranslated", JStr "Accountant")] ]} in
  exists obs,
    searchAsync (example_env true) "Acc" (Some [0; 1]) (Some ["position"]) None
      = Some obs /\
    obs 1 (example_env true) new_service h = Ok (mkRun [1] (Ok tt), [0; 1], h').
Proof.
  intros h h'.
  apply (searchAsync_passes_what_search_returns 1 (example_env true)
           new_service h "Acc" [0; 1] (Some ["position"]) None [1] h').
  vm_compute. reflexivity.
Defined.

(** ** Matching of exact substrings *)

Lemma substr_middle (pre s post : string) :
  substr (pre +:+ s +:+ post) (String.length pre) (String.length s) = s.
Proof.
  unfold substr. induction pre as [|c pre IH].
  - rewrite append_nil. apply (TemplateProperties.substr_prefix s post).
  - rewrite append_cons. cbn [String.length String.substring]. exact IH.
Qed.

(** X18.  With a collator for which a string collates equal to itself,
    [match] finds every string in a value that contains it: at the start,
    in the middle or at the end of the value, and as the whole value. *)
Theorem match_finds_contained_string collator (pre s post : string) :
  (forall x, collator x x = 0%Z) ->
  match_ collator (pre +:+ s +:+ post) s = true.
Proof.
  intros Hrefl. set (v := pre +:+ s +:+ post).
  assert (Hlen : String.length v =
                 String.length pre + String.length s + String.length post).
  { unfold v. rewrite !length_append. lia. }
  unfold match_. fold v.
  destruct (Nat.ltb_spec (String.length v) (String.length s)); [lia|].
  destruct (Nat.eqb_spec (String.length s) (String.length v)) as [E|E].
  - assert (Hpre : pre = "") by (destruct pre; [reflexivity | simpl in *; lia]).
    assert (Hpost : post = "")
      by (destruct post; [reflexivity | simpl in *; lia]).
    unfold v. rewrite Hpre, Hpost, append_nil, append_empty_r, Hrefl.
    reflexivity.
  - pose proof (match_loop_spec collator (match_rounds v s) 0 v s) as Hl.
    rewrite (match_rounds_shorter v s) in Hl |- * by lia.
    destruct (match_loop collator (String.length v - String.length s + 1) 0 v s)
      as [[|] k]; [reflexivity|].
    exfalso. destruct Hl as [_ Hnone].
    apply (Hnone (String.length pre)); [lia|].
    unfold matches_at, v. rewrite substr_middle. apply Hrefl.
Qed.

Lemma compare_code_units_refl x : compare_code_units x x = 0%Z.
Proof.
  unfold compare_code_units.
  replace (String.compare x x) with Eq; [reflexivity|].
  symmetry. induction x as [|c x IH]; simpl; [reflexivity|].
  unfold Ascii.compare. rewrite N.compare_refl. exact IH.
Qed.

Lemma match_finds_contained_string_witness :
  match_ compare_code_units ("Senior " +:+ "Javascript" +:+ " Developer")
    "Javascript" = true.
Proof.
  apply (match_finds_contained_string compare_code_units "Senior "
           "Javascript" " Developer").
  exact compare_code_units_refl.
Defined.

(** ** Events *)

(** X19.  A call sends at most one event, and it sends one exactly when
    it makes the service ready.  A call that sends an event leaves the
    service ready, and the event carries the language code that the
    service has after the call.  A call that sends no event leaves the
    language code as it is and the state as it is, or loading: when the
    state after a call is ready and was not before, the call has sent an
    event. *)
Theorem event_is_sent_when_ready env op s :
  ((translationChanged (step env op s) = translationChanged s /\
    languageCode (step env op s) = languageCode s /\
    (serviceState (step env op s) = serviceState s \/
     serviceState (step env op s) = isLoading)) \/
   (translationChanged (step env op s) =
      translationChanged s ++ [languageCode (step env op s)] /\
    serviceState (step env op s) = isReady)) /\
  (serviceState (step env op s) = isReady ->
   serviceState s <> isReady ->
   translationChanged (step env op s) =
     translationChanged s ++ [languageCode (step env op s)]).
Proof.
  assert (H :
    (translationChanged (step env op s) = translationChanged s /\
     languageCode (step env op s) = languageCode s /\
     (serviceState (step env op s) = serviceState s \/
      serviceState (step env op s) = isLoading)) \/
    (translationChanged (step env op s) =
       translationChanged s ++ [languageCode (step env op s)] /\
     serviceState (step env op s) = isReady)).
  { destruct op; simpl; try (left; repeat split; left; reflexivity).
    - left. unfold translationProvider, addProvider.
      case_match; repeat split; left; reflexivity.
    - left. unfold addProvider. case_match; repeat split; left; reflexivity.
    - destruct (updateTranslation_cases env language s)
        as [-> | [(l & _ & _ & ->) | (l & _ & _ & ->)]].
      + left. repeat split. left. reflexivity.
      + right. split; reflexivity.
      + left.
        destruct (getTranslation_state l s) as (Hst & _ & _ & He & Hl & _).
        repeat split; [exact He | exact Hl | right; exact Hst].
    - destruct r as [res|e]; simpl; [|left; repeat split; left; reflexivity].
      destruct (on_complete_cases language (on_next language res s))
        as [-> | ->]; [left; repeat split; left; reflexivity|].
      right. split; reflexivity. }
  split; [exact H|].
  intros Hready Hnot.
  destruct H as [(_ & _ & [Hsame | Hload]) | [Hev _]]; [| |exact Hev].
  - congruence.
  - congruence.
Qed.

(** ** The language of a request *)

(** X20.  [updateTranslation] without argument asks for the current
    language of the locale service, or for the language and the country
    joined by "-" after [useLocaleAsLanguage].  On a new service with one
    provider of files the request goes to the prefix followed by that
    name and ".json". *)
Theorem update_without_argument_uses_locale env prefix :
  getCurrentLanguage env <> "" ->
  http_get
    (updateTranslation env None (translationProvider prefix None None new_service))
  = [prefix +:+ getCurrentLanguage env +:+ ".json"] /\
  http_get
    (updateTranslation env None
       (useLocaleAsLanguage (translationProvider prefix None None new_service)))
  = [prefix +:+ (getCurrentLanguage env +:+ "-" +:+ getCurrentCountry env)
     +:+ ".json"] /\
  (forall s,
     updateTranslation env None s =
     updateTranslation env
       (Some (if enableLocale s
              then getCurrentLanguage env +:+ "-" +:+ getCurrentCountry env
              else getCurrentLanguage env)) s).
Proof.
  intros Hl. split; [|split].
  - unfold updateTranslation. cbn [default from_option enableLocale
      translationProvider addProvider negb].
    simpl. destruct (String.eqb_spec (getCurrentLanguage env) "");
      [contradiction|].
    reflexivity.
  - unfold updateTranslation. simpl.
    destruct (String.eqb_spec
                (getCurrentLanguage env +:+ "-" +:+ getCurrentCountry env) "")
      as [E|E]; [|reflexivity].
    exfalso. apply (f_equal String.length) in E.
    rewrite !length_append in E. simpl in E. lia.
  - intros s. unfold updateTranslation. cbn [default from_option id].
    destruct (enableLocale s); reflexivity.
Qed.

Lemma update_without_argument_uses_locale_witness :
  http_get
    (updateTranslation (example_env true) None
       (translationProvider "./resources/locale-" None None new_service))
  = ["./resources/locale-" +:+ "en" +:+ ".json"].
Proof.
  apply (update_without_argument_uses_locale (example_env true)
           "./resources/locale-").
  discriminate.
Defined.

(** ** Composed keys without separator *)

(** X21.  After [setComposedKey] with the separator left out, a key is
    not cut at any point: the value is looked up at the whole key, with
    composed keys on as with composed keys off or left out. *)
Theorem composed_key_without_separator c s t (key : string) language :
  translationData s !! language = Some t ->
  is_mapping (prop_get t key) = false ->
  find_value (setComposedKey c None s) (JStr key) language =
  Ok (JStr key, prop_get t key).
Proof.
  intros Ht Hm. unfold find_value.
  change (translationData (setComposedKey c None s)) with (translationData s).
  rewrite Ht.
  change (composedKey (setComposedKey c None s)) with (default false c).
  change (keySeparator (setComposedKey c None s)) with (@None string).
  destruct c as [[|]|]; try reflexivity.
  cbn [default from_option id key_split bind split descend].
  rewrite descend_step_other by exact Hm. reflexivity.
Qed.

Lemma composed_key_without_separator_witness :
  find_value
    (setComposedKey (Some true) None
       (addTranslation "en" [("app.title", JStr "Demo")] new_service))
    (JStr "app.title") "en" = Ok (JStr "app.title", JStr "Demo").
Proof.
  apply (composed_key_without_separator (Some true)
           (addTranslation "en" [("app.title", JStr "Demo")] new_service)
           [("app.title", JStr "Demo")] "app.title" "en"); reflexivity.
Defined.
